(** * pbatch: bounded-parallelism batch execution (src/lib.go)

    A shallow embedding of [Run], [Process] and [aggregateErrors].
    [Run] is concurrent: the main goroutine iterates over the items and
    spawns one goroutine per item.  We model it as an interleaving
    transition system over an explicit shared state:
    - the semaphore channel [semaphore] of capacity [batchSize], as the
      number of tokens it buffers;
    - the [sync.WaitGroup] counter [wg];
    - the [results] slice, written under the mutex;
    - the buffered channel [errChan] of capacity [len(items)], as a FIFO queue;
    - the slice [allErrors], appended under the mutex;
    - the program counter of the main goroutine and of every spawned
      goroutine.
    Mutex-protected sections and single channel operations are atomic
    steps; the caller's [process] call is one atomic step followed by the
    goroutine's effect on the shared state (the effect is under the mutex
    or is one channel operation). *)

From Stdlib Require Import String ZArith.
From stdpp Require Import base list relations.

Set Warnings "-register-all".


Open Scope nat_scope.

(** ** Go errors *)

(** The [error] values the package deals with: the flat
    [*errors.errorString] produced by [errors.New] / [fmt.Errorf]
    (and by [aggregateErrors]), and a composite [BatchError] holding a
    slice of errors.  [BatchError] is not declared in src/lib.go; it is
    used by the tests and the README (see [IsBatchError] below). *)
Inductive error : Type :=
  | errorString (s : string)
  | BatchError (errs : list error).

(** [err.Error()].  For the [BatchError] case the message follows the
    README ("batch error: " then the constituent messages). *)
Fixpoint Error (e : error) : string :=
  match e with
  | errorString s => s
  | BatchError errs =>
      String.append "batch error: " (String.concat "; " (map Error errs))
  end.

(** [aggregateErrors] (lib.go l.131-137): collect [err.Error()] of every
    error and build [errors.New("multiple errors: " + strings.Join(.., "; "))]. *)
Definition aggregateErrors (errs : list error) : error :=
  errorString (String.append "multiple errors: "
                 (String.concat "; " (map Error errs))).

(** Modelled from the spec: [IsBatchError], called by lib_test.go and the
    README but absent from src/lib.go.  "isAggregate(err) tests whether an
    arbitrary error value is the aggregate type"; [None] is Go's [nil]. *)
Definition IsBatchError (err : option error) : bool :=
  match err with
  | Some (BatchError _) => true
  | _ => false
  end.

(** Modelled from the spec: [UnwrapBatchError], called by lib_test.go and
    the README but absent from src/lib.go.  "returns the constituent
    failures if err is an AggregateFailure, else a one-element sequence
    containing err". *)
Definition UnwrapBatchError (err : option error) : list (option error) :=
  match err with
  | Some (BatchError errs) => map Some errs
  | _ => [err]
  end.

(** ** Error strategy (lib.go l.9-14): a Go [bool]. *)
Definition errorHandler := bool.
Definition STOP_ON_ERROR : errorHandler := true.
Definition CONTINUE_ON_ERROR : errorHandler := false.

(** ** Threads and their program counters *)

(** A spawned goroutine ([go func(i int, item T) {...}]):
    - [GStart]: spawned, [process(item)] not yet done;
    - [GRelease]: body done, deferred [<-semaphore] pending;
    - [GDone]: deferred [wg.Done()] pending;
    - [GFinished]: exited. *)
Inductive gphase : Type := GStart | GRelease | GDone | GFinished.

(** The main goroutine:
    - [MLoop i]: top of the [for i, item := range items] loop;
    - [MCheck i]: goroutine [i] spawned, the STOP_ON_ERROR check of
      l.78-86 is next;
    - [MWaitEarly e]: received [e] at l.80, now in [wg.Wait()] (l.82);
    - [MWaitFinal]: loop done, in [wg.Wait()] (l.90) and the tail;
    - [MReturned res err]: [Run] returned [(res, err)] ([nil] slice = []);
    - [MPanic]: [make(chan struct{}, batchSize)] panicked. *)
Inductive mpc (R : Type) : Type :=
  | MLoop (i : nat)
  | MCheck (i : nat)
  | MWaitEarly (e : error)
  | MWaitFinal
  | MReturned (res : list R) (err : option error)
  | MPanic.
Arguments MLoop {R} i.
Arguments MCheck {R} i.
Arguments MWaitEarly {R} e.
Arguments MWaitFinal {R}.
Arguments MReturned {R} res err.
Arguments MPanic {R}.

Record state (R : Type) : Type := mkState {
  pc : mpc R;
  sem : nat;              (* tokens buffered in [semaphore] *)
  wg : nat;               (* WaitGroup counter *)
  results : list R;
  errChan : list error;   (* buffered values of [errChan], oldest first *)
  allErrors : list error;
  gs : list gphase        (* goroutine spawned for items[j] is gs[j] *)
}.
Arguments mkState {R}.
Arguments pc {R}.
Arguments sem {R}.
Arguments wg {R}.
Arguments results {R}.
Arguments errChan {R}.
Arguments allErrors {R}.
Arguments gs {R}.

Inductive thread : Type := Main | Go (j : nat).

Section Run.

Context {T R : Type}.
Variable items : list T.
Variable batchSize : Z.
Variable handleErrorStrategy : errorHandler.
Variable process : T -> R * option error.
(** The zero value of [R], what [make([]R, len(items))] fills in. *)
Variable zero : R.

Definition cap : nat := Z.to_nat batchSize.

(** Lines 30-39 of [Run]. *)
Definition Run_init : state R :=
  if (batchSize <? 0)%Z then mkState MPanic 0 0 [] [] [] []
  else mkState (MLoop 0) 0 0 (replicate (length items) zero) [] [] [].

(** One atomic step of the main goroutine. *)
Definition main_step (s : state R) : option (state R) :=
  let '(mkState p sm w res ec ae g) := s in
  match p with
  | MLoop i =>
      match items !! i with
      | Some _ =>
          (* semaphore <- struct{}{}: blocks while the buffer is full;
             then wg.Add(1) and the go statement *)
          if sm <? cap
          then Some (mkState (MCheck i) (S sm) (S w) res ec ae (g ++ [GStart]))
          else None
      | None => Some (mkState MWaitFinal sm w res ec ae g)
      end
  | MCheck i =>
      if handleErrorStrategy then
        (* select { case err := <-errChan: ... default: } *)
        match ec with
        | e :: ec' => Some (mkState (MWaitEarly e) sm w res ec' ae g)
        | [] => Some (mkState (MLoop (S i)) sm w res ec ae g)
        end
      else Some (mkState (MLoop (S i)) sm w res ec ae g)
  | MWaitEarly e =>
      (* wg.Wait(); return nil, err *)
      if w =? 0 then Some (mkState (MReturned [] (Some e)) sm w res ec ae g)
      else None
  | MWaitFinal =>
      if w =? 0 then
        match handleErrorStrategy, ec with
        | true, e :: ec' => Some (mkState (MReturned [] (Some e)) sm w res ec' ae g)
        | _, _ =>
            match handleErrorStrategy, ae with
            | false, _ :: _ =>
                Some (mkState (MReturned res (Some (aggregateErrors ae))) sm w res ec ae g)
            | _, _ => Some (mkState (MReturned res None) sm w res ec ae g)
            end
        end
      else None
  | MReturned _ _ | MPanic => None
  end.

(** One atomic step of the goroutine spawned for [items[j]]. *)
Definition go_step (j : nat) (s : state R) : option (state R) :=
  let '(mkState p sm w res ec ae g) := s in
  match g !! j, items !! j with
  | Some GStart, Some item =>
      let '(result, err) := process item in
      match err with
      | Some e =>
          if handleErrorStrategy then
            (* select { case errChan <- err: default: } *)
            let ec' := if length ec <? length items then ec ++ [e] else ec in
            Some (mkState p sm w res ec' ae (<[j:=GRelease]> g))
          else
            (* mu.Lock(); allErrors = append(allErrors, err); mu.Unlock() *)
            Some (mkState p sm w res ec (ae ++ [e]) (<[j:=GRelease]> g))
      | None =>
          (* mu.Lock(); results[i] = result; mu.Unlock() *)
          Some (mkState p sm w (<[j:=result]> res) ec ae (<[j:=GRelease]> g))
      end
  | Some GRelease, _ =>
      (* deferred <-semaphore: blocks while the channel is empty *)
      match sm with
      | S sm' => Some (mkState p sm' w res ec ae (<[j:=GDone]> g))
      | 0 => None
      end
  | Some GDone, _ =>
      (* deferred wg.Done() (a negative counter would panic; unreachable) *)
      match w with
      | S w' => Some (mkState p sm w' res ec ae (<[j:=GFinished]> g))
      | 0 => None
      end
  | _, _ => None
  end.

Definition exec (t : thread) (s : state R) : option (state R) :=
  match t with
  | Main => main_step s
  | Go j => go_step j s
  end.

(** The scheduler may run any thread that can take a step. *)
Definition step (s s' : state R) : Prop := exists t, exec t s = Some s'.

(** Running a given schedule. *)
Fixpoint run_sched (s : state R) (ts : list thread) : option (state R) :=
  match ts with
  | [] => Some s
  | t :: ts' =>
      match exec t s with
      | Some s' => run_sched s' ts'
      | None => None
      end
  end.

(** Outcomes of [Run]: a reachable final state. *)
Definition Run_returns (res : list R) (err : option error) : Prop :=
  exists s, rtc step Run_init s /\ pc s = MReturned res err.

Definition Run_panics : Prop :=
  exists s, rtc step Run_init s /\ pc s = MPanic.

End Run.

Arguments Run_init {T R} items batchSize zero.
Arguments Run_returns {T R} items batchSize handleErrorStrategy process zero res err.
Arguments Run_panics {T R} items batchSize handleErrorStrategy process zero.
Arguments step {T R} items batchSize handleErrorStrategy process s s'.
Arguments run_sched {T R} items batchSize handleErrorStrategy process s ts.

(** [Process] (lib.go l.122-128): [Run] under STOP_ON_ERROR with the
    wrapper [func(item T) (struct{}, error) { return struct{}{}, process(item) }],
    keeping only the error. *)
Definition Process_wrap {T : Type} (process : T -> option error) (item : T)
  : unit * option error := (tt, process item).

Definition Process_returns {T : Type} (items : list T) (batchSize : Z)
    (process : T -> option error) (err : option error) : Prop :=
  exists res, Run_returns items batchSize STOP_ON_ERROR (Process_wrap process) tt res err.

Definition Process_panics {T : Type} (items : list T) (batchSize : Z)
    (process : T -> option error) : Prop :=
  Run_panics items batchSize STOP_ON_ERROR (Process_wrap process) tt.

(** ** Abstractions used by the invariant *)

Section Abstractions.

Context {T R : Type}.
Variable handleErrorStrategy : errorHandler.
Variable process : T -> R * option error.
Variable zero : R.

(** Has the goroutine run [process] already? *)
Definition ran (g : gphase) : bool :=
  match g with GStart => false | _ => true end.

(** Does the goroutine hold a semaphore token? *)
Definition holds (g : gphase) : bool :=
  match g with GStart | GRelease => true | _ => false end.

(** Has the goroutine not yet called [wg.Done()]? *)
Definition alive (g : gphase) : bool :=
  match g with GFinished => false | _ => true end.

Fixpoint count_of (f : gphase -> bool) (g : list gphase) : nat :=
  match g with
  | [] => 0
  | g0 :: g' => (if f g0 then 1 else 0) + count_of f g'
  end.

(** The value slot [i] should hold once item [i] is processed. *)
Definition value_or_zero (x : T) : R :=
  match process x with
  | (r, None) => r
  | (_, Some _) => zero
  end.

Definition err_of (x : T) : list error :=
  match snd (process x) with
  | Some e => [e]
  | None => []
  end.

(** The failures of the whole input, in input order. *)
Definition item_errors (xs : list T) : list error := xs ≫= err_of.

(** The content of [results] given which goroutines have run. *)
Fixpoint slots (g : list gphase) (xs : list T) : list R :=
  match xs with
  | [] => []
  | x :: xs' =>
      match g with
      | g0 :: g' => (if ran g0 then value_or_zero x else zero) :: slots g' xs'
      | [] => zero :: slots [] xs'
      end
  end.

(** The failures reported so far, in input order. *)
Fixpoint ran_errors (g : list gphase) (xs : list T) : list error :=
  match g, xs with
  | g0 :: g', x :: xs' => (if ran g0 then err_of x else []) ++ ran_errors g' xs'
  | _, _ => []
  end.

Lemma count_of_app f g1 g2 : count_of f (g1 ++ g2) = count_of f g1 + count_of f g2.
Proof. induction g1 as [|g0 g1 IH]; simpl; [done|]. rewrite IH. lia. Qed.

Lemma count_of_insert f g j g0 g' :
  g !! j = Some g0 ->
  count_of f (<[j:=g']> g) + (if f g0 then 1 else 0)
  = count_of f g + (if f g' then 1 else 0).
Proof.
  revert j. induction g as [|h g IH]; intros [|j] Hj; simpl in *; try done.
  - injection Hj as ->. lia.
  - specialize (IH j Hj). lia.
Qed.

Lemma slots_nil xs : slots [] xs = replicate (length xs) zero.
Proof. induction xs; simpl; congruence. Qed.

Lemma length_slots g xs : length (slots g xs) = length xs.
Proof.
  revert g. induction xs as [|x xs IH]; intros [|g0 g]; simpl; rewrite ?IH; done.
Qed.

Lemma slots_spawn g xs : slots (g ++ [GStart]) xs = slots g xs.
Proof.
  revert g. induction xs as [|x xs IH]; intros [|g0 g]; simpl; try done.
  by rewrite IH.
Qed.

Lemma ran_errors_spawn g xs : ran_errors (g ++ [GStart]) xs = ran_errors g xs.
Proof.
  revert xs. induction g as [|g0 g IH]; intros [|x xs]; simpl; try done.
  by rewrite IH.
Qed.

Lemma slots_insert_same g xs j g0 g' :
  g !! j = Some g0 -> ran g' = ran g0 -> slots (<[j:=g']> g) xs = slots g xs.
Proof.
  revert g j. induction xs as [|x xs IH]; intros [|h g] [|j] Hj Hr; simpl in *;
    try done.
  - injection Hj as ->. by rewrite Hr.
  - destruct g; simpl; [done|]. by rewrite (IH (g :: _) j Hj Hr).
Qed.

Lemma ran_errors_insert_same g xs j g0 g' :
  g !! j = Some g0 -> ran g' = ran g0 -> ran_errors (<[j:=g']> g) xs = ran_errors g xs.
Proof.
  revert xs j. induction g as [|h g IH]; intros [|x xs] [|j] Hj Hr; simpl in *;
    try done.
  - injection Hj as ->. by rewrite Hr.
  - by rewrite (IH xs j Hj Hr).
Qed.

Lemma slots_run g xs j x :
  g !! j = Some GStart -> xs !! j = Some x ->
  slots (<[j:=GRelease]> g) xs = <[j:=value_or_zero x]> (slots g xs).
Proof.
  revert g j. induction xs as [|x0 xs IH]; intros [|h g] [|j] Hg Hx; simpl in *;
    try done.
  - injection Hg as ->. injection Hx as ->. done.
  - by rewrite (IH g j Hg Hx).
Qed.

Lemma slots_lookup_start g xs j x :
  g !! j = Some GStart -> xs !! j = Some x -> slots g xs !! j = Some zero.
Proof.
  revert g j. induction xs as [|x0 xs IH]; intros [|h g] [|j] Hg Hx; simpl in *;
    try done.
  - by injection Hg as ->.
  - by apply (IH g j).
Qed.

Lemma ran_errors_run g xs j x :
  g !! j = Some GStart -> xs !! j = Some x ->
  ran_errors (<[j:=GRelease]> g) xs ≡ₚ ran_errors g xs ++ err_of x.
Proof.
  revert xs j. induction g as [|h g IH]; intros [|x0 xs] [|j] Hg Hx; simpl in *;
    try done.
  - injection Hg as ->. injection Hx as ->. simpl. by rewrite (comm (++)).
  - rewrite (IH xs j Hg Hx). by rewrite (assoc (++)).
Qed.

Lemma length_ran_errors_lt g xs j :
  g !! j = Some GStart -> length (ran_errors g xs) < length g.
Proof.
  assert (Hle : forall g' xs', length (ran_errors g' xs') <= length g').
  { clear. induction g' as [|h g' IH]; intros [|x xs']; simpl; try lia.
    rewrite length_app. specialize (IH xs').
    destruct (ran h); unfold err_of; [destruct (snd (process x))|]; simpl; lia. }
  revert xs j. induction g as [|h g IH]; intros [|x xs] [|j] Hg; simpl in *;
    try done; try lia.
  - injection Hg as ->. simpl. specialize (Hle g xs). lia.
  - rewrite length_app. specialize (IH xs j Hg).
    destruct (ran h); unfold err_of; [destruct (snd (process x))|]; simpl; lia.
Qed.

Lemma ran_errors_sub g xs e : e ∈ ran_errors g xs -> e ∈ item_errors xs.
Proof.
  revert xs. induction g as [|h g IH]; intros [|x xs]; simpl;
    try (intros He; by apply not_elem_of_nil in He).
  unfold item_errors; simpl. rewrite !elem_of_app. intros [He|He].
  - left. destruct (ran h); [done|]. by apply not_elem_of_nil in He.
  - right. by apply IH.
Qed.

Lemma all_finished_slots g xs :
  Forall (fun g0 => g0 = GFinished) g -> length g = length xs ->
  slots g xs = map value_or_zero xs.
Proof.
  revert g. induction xs as [|x xs IH]; intros [|h g] Hf Hl; simpl in *; try done.
  inversion Hf; subst. simpl. f_equal. apply IH; [done|lia].
Qed.

Lemma all_finished_ran_errors g xs :
  Forall (fun g0 => g0 = GFinished) g -> length g = length xs ->
  ran_errors g xs = item_errors xs.
Proof.
  revert g. induction xs as [|x xs IH]; intros [|h g] Hf Hl; simpl in *; try done.
  inversion Hf; subst. simpl. unfold item_errors in *. simpl. f_equal.
  apply IH; [done|lia].
Qed.

Lemma live_zero g : count_of alive g = 0 -> Forall (fun g0 => g0 = GFinished) g.
Proof.
  induction g as [|[] g IH]; simpl; intros H; try lia; constructor; auto.
Qed.

End Abstractions.

(** ** The invariant of [Run] *)

Section Invariant.

Context {T R : Type}.
Variable items : list T.
Variable batchSize : Z.
Variable handleErrorStrategy : errorHandler.
Variable process : T -> R * option error.
Variable zero : R.

Local Abbreviation step := (step items batchSize handleErrorStrategy process).

Definition is_panic (p : mpc R) : bool :=
  match p with MPanic => true | _ => false end.

(** The main goroutine has not received from [errChan] yet. *)
Definition loop_phase (p : mpc R) : bool :=
  match p with MLoop _ | MCheck _ | MWaitFinal => true | _ => false end.

(** What a returned [(res, err)] satisfies. *)
Definition outcome_ok (res : list R) (err : option error) : Prop :=
  if handleErrorStrategy then
    match item_errors process items with
    | [] => res = map (value_or_zero process zero) items /\ err = None
    | _ :: _ => res = [] /\ exists e, err = Some e /\ e ∈ item_errors process items
    end
  else
    res = map (value_or_zero process zero) items /\
    match item_errors process items with
    | [] => err = None
    | _ :: _ => exists es, es ≡ₚ item_errors process items /\
                           err = Some (aggregateErrors es)
    end.

Definition pc_inv (p : mpc R) (g : list gphase) : Prop :=
  match p with
  | MLoop i => length g = i
  | MCheck i => length g = S i
  | MWaitFinal => length g = length items
  | MWaitEarly e => handleErrorStrategy = true /\ e ∈ item_errors process items
  | MReturned res err =>
      Forall (fun g0 => g0 = GFinished) g /\ outcome_ok res err /\
      (handleErrorStrategy = false -> length g = length items)
  | MPanic => True
  end.

Definition Inv (s : state R) : Prop :=
  if is_panic (pc s) then gs s = [] /\ sem s = 0 /\ wg s = 0
  else
    length (gs s) <= length items /\
    sem s = count_of holds (gs s) /\ sem s <= cap batchSize /\
    wg s = count_of alive (gs s) /\
    results s = slots process zero (gs s) items /\
    (if handleErrorStrategy
     then allErrors s = [] /\
          (loop_phase (pc s) = true -> errChan s ≡ₚ ran_errors process (gs s) items)
     else errChan s = [] /\ allErrors s ≡ₚ ran_errors process (gs s) items) /\
    pc_inv (pc s) (gs s).

Lemma Inv_init : Inv (Run_init items batchSize zero).
Proof.
  unfold Run_init, Inv. destruct (batchSize <? 0)%Z; simpl; [done|].
  rewrite slots_nil.
  destruct handleErrorStrategy; repeat split; intros; simpl; (done || lia).
Qed.

Lemma pc_inv_go p g j g0 g' :
  pc_inv p g -> g !! j = Some g0 -> g0 <> GFinished -> pc_inv p (<[j:=g']> g).
Proof.
  intros Hp Hj Hne. destruct p; simpl in *; rewrite ?length_insert; try done.
  destruct Hp as [Hf _]. exfalso. apply Hne.
  exact (Forall_lookup_1 (fun g1 => g1 = GFinished) g j g0 Hf Hj).
Qed.

Lemma Inv_go j s s' : Inv s -> go_step items handleErrorStrategy process j s = Some s' -> Inv s'.
Proof.
  destruct s as [p sm w res ec ae g]. unfold Inv; simpl. intros HI Hs.
  unfold go_step in Hs.
  destruct (g !! j) as [g0|] eqn:Hg; [|done].
  destruct (is_panic p) eqn:Hp.
  { destruct HI as [-> _]. done. }
  destruct HI as (Hlen & Hsem & Hcap & Hwg & Hres & Herr & Hpc).
  assert (Hlt : j < length g) by (by eapply lookup_lt_Some).
  destruct g0; [destruct (items !! j) as [item|] eqn:Hx| | |]; try done.
  - (* the body: process(item) and its effect *)
    pose proof (count_of_insert holds g j GStart GRelease Hg) as Ch.
    pose proof (count_of_insert alive g j GStart GRelease Hg) as Ca.
    pose proof (slots_run process zero g items j item Hg Hx) as Hsl.
    pose proof (ran_errors_run process g items j item Hg Hx) as Hre.
    pose proof (slots_lookup_start process zero g items j item Hg Hx) as Hz.
    pose proof (length_ran_errors_lt process g items j Hg) as Hrl.
    unfold value_or_zero, err_of in *.
    destruct (process item) as [result [e|]]; simpl in *.
    + destruct handleErrorStrategy; injection Hs as <-; simpl;
        rewrite Hp; simpl in *.
      * destruct Herr as [Hae Hec].
        repeat split; rewrite ?length_insert; try lia.
        -- rewrite Hsl, list_insert_id; done.
        -- done.
        -- intros Hl. specialize (Hec Hl).
           assert (length ec < length items) as Hn.
           { rewrite Hec. lia. }
           apply Nat.ltb_lt in Hn. rewrite Hn, Hre, Hec. done.
        -- eapply pc_inv_go; eauto.
      * destruct Herr as [Hec Hae].
        repeat split; rewrite ?length_insert; try lia.
        -- rewrite Hsl, list_insert_id; done.
        -- done.
        -- rewrite Hre, Hae. done.
        -- eapply pc_inv_go; eauto.
    + injection Hs as <-; simpl. rewrite Hp. rewrite app_nil_r in Hre.
      repeat split; rewrite ?length_insert; try lia.
      * rewrite Hsl, Hres. done.
      * destruct handleErrorStrategy; destruct Herr as [H1 H2]; split; try done.
        -- intros Hl. rewrite Hre. by apply H2.
        -- rewrite Hre. done.
      * eapply pc_inv_go; eauto.
  - (* deferred <-semaphore *)
    destruct sm as [|sm']; [done|]. injection Hs as <-; simpl. rewrite Hp.
    pose proof (count_of_insert holds g j GRelease GDone Hg) as Ch.
    pose proof (count_of_insert alive g j GRelease GDone Hg) as Ca.
    simpl in Ch, Ca.
    rewrite (slots_insert_same process zero g items j GRelease GDone Hg eq_refl).
    rewrite (ran_errors_insert_same process g items j GRelease GDone Hg eq_refl).
    repeat split; rewrite ?length_insert; try lia; try done.
    eapply pc_inv_go; eauto.
  - (* deferred wg.Done() *)
    destruct w as [|w']; [done|]. injection Hs as <-; simpl. rewrite Hp.
    pose proof (count_of_insert holds g j GDone GFinished Hg) as Ch.
    pose proof (count_of_insert alive g j GDone GFinished Hg) as Ca.
    simpl in Ch, Ca.
    rewrite (slots_insert_same process zero g items j GDone GFinished Hg eq_refl).
    rewrite (ran_errors_insert_same process g items j GDone GFinished Hg eq_refl).
    repeat split; rewrite ?length_insert; try lia; try done.
    eapply pc_inv_go; eauto.
Qed.

Lemma Inv_main s s' :
  Inv s -> main_step items batchSize handleErrorStrategy s = Some s' -> Inv s'.
Proof.
  destruct s as [p sm w res ec ae g]. unfold Inv; simpl. intros HI Hs.
  destruct p as [i|i|e| |r er|]; simpl in Hs, HI; try done;
    destruct HI as (Hlen & Hsem & Hcap & Hwg & Hres & Herr & Hpc); simpl in Hpc.
  - (* MLoop i *)
    destruct (items !! i) as [x|] eqn:Hx.
    + destruct (sm <? cap batchSize) eqn:Hc; [|done]. injection Hs as <-. simpl.
      apply Nat.ltb_lt in Hc. pose proof (lookup_lt_Some _ _ _ Hx).
      rewrite !count_of_app, length_app, slots_spawn, ran_errors_spawn. simpl.
      repeat split; try lia; try done.
    + injection Hs as <-. simpl. apply lookup_ge_None in Hx.
      repeat split; try lia; try done.
  - (* MCheck i *)
    destruct handleErrorStrategy eqn:Hpol; [destruct ec as [|e ec']|];
      injection Hs as <-; simpl; repeat split; try lia; try done;
      rewrite ?Hpol; destruct Herr as [H1 H2]; try split; try done.
    apply (ran_errors_sub process g). rewrite <- (H2 eq_refl). left.
  - (* MWaitEarly e *)
    destruct (w =? 0) eqn:Hw; [|done]. injection Hs as <-. simpl.
    apply Nat.eqb_eq in Hw. destruct Hpc as [Hpol He].
    repeat split; try lia; try done.
    + apply live_zero. lia.
    + unfold outcome_ok. rewrite Hpol.
      destruct (item_errors process items); [by apply not_elem_of_nil in He|].
      split; [done|]. by exists e.
    + intros Hf. congruence.
  - (* MWaitFinal *)
    destruct (w =? 0) eqn:Hw; [|done]. apply Nat.eqb_eq in Hw.
    assert (Hf : Forall (fun g0 => g0 = GFinished) g) by (apply live_zero; lia).
    pose proof (all_finished_slots process zero g items Hf Hpc) as Hsl.
    pose proof (all_finished_ran_errors process g items Hf Hpc) as Hre.
    rewrite Hre in Herr. rewrite Hsl in Hres. subst res.
    destruct handleErrorStrategy eqn:Hpol.
    + destruct Herr as [Hae Hec]. specialize (Hec eq_refl).
      destruct ec as [|e ec']; injection Hs as <-; simpl;
        repeat split; try lia; try done; try (intros; congruence);
        unfold outcome_ok; rewrite Hpol.
      * apply Permutation_nil_l in Hec. rewrite <- Hec. by split.
      * assert (Hin : e ∈ item_errors process items) by (rewrite <- Hec; left).
        destruct (item_errors process items) as [|e0 l] eqn:Hie.
        { by apply Permutation_nil_r in Hec. }
        split; [done|]. by exists e.
    + destruct Herr as [Hec Hae]. subst ec.
      destruct ae as [|a ae']; injection Hs as <-; simpl;
        repeat split; try lia; try done; try (intros; congruence);
        unfold outcome_ok; rewrite Hpol.
      * apply Permutation_nil_l in Hae. rewrite <- Hae. by split.
      * split; [done|].
        destruct (item_errors process items) as [|e0 l] eqn:Hie.
        { by apply Permutation_nil_r in Hae. }
        by exists (a :: ae').
Qed.

Lemma Inv_step s s' : Inv s -> step s s' -> Inv s'.
Proof.
  intros HI [[|j] Hs]; simpl in Hs.
  - by eapply Inv_main.
  - by eapply Inv_go.
Qed.

Lemma Inv_reachable s : rtc step (Run_init items batchSize zero) s -> Inv s.
Proof.
  intros Hr. remember (Run_init items batchSize zero) as s0 eqn:E.
  assert (H0 : Inv s0) by (subst; apply Inv_init). clear E.
  induction Hr as [s0|s0 s1 s2 Hst Hr IH]; [done|].
  apply IH. by eapply Inv_step.
Qed.

(** ** Progress and termination *)

Definition final (p : mpc R) : bool :=
  match p with MReturned _ _ | MPanic => true | _ => false end.

Definition grank (g : gphase) : nat :=
  match g with GStart => 3 | GRelease => 2 | GDone => 1 | GFinished => 0 end.

Fixpoint gsum (g : list gphase) : nat :=
  match g with [] => 0 | g0 :: g' => grank g0 + gsum g' end.

Definition rank (p : mpc R) : nat :=
  match p with
  | MLoop i => 6 * (length items - i) + 2
  | MCheck i => 6 * (length items - S i) + 4
  | MWaitEarly _ | MWaitFinal => 1
  | MReturned _ _ | MPanic => 0
  end.

Definition measure (s : state R) : nat := rank (pc s) + gsum (gs s).

Lemma gsum_app g1 g2 : gsum (g1 ++ g2) = gsum g1 + gsum g2.
Proof. induction g1 as [|g0 g1 IH]; simpl; [done|]. rewrite IH. lia. Qed.

Lemma gsum_insert g j g0 g' :
  g !! j = Some g0 -> gsum (<[j:=g']> g) + grank g0 = gsum g + grank g'.
Proof.
  revert j. induction g as [|h g IH]; intros [|j] Hj; simpl in *; try done.
  - injection Hj as ->. lia.
  - specialize (IH j Hj). lia.
Qed.

Lemma measure_step s s' : step s s' -> measure s' < measure s.
Proof.
  destruct s as [p sm w res ec ae g]. intros [[|j] Hs]; simpl in Hs.
  - destruct p as [i|i|e| |r er|]; try done.
    + destruct (items !! i) as [x|] eqn:Hx.
      * destruct (sm <? cap batchSize); [|done]. injection Hs as <-.
        apply lookup_lt_Some in Hx. unfold measure; simpl.
        rewrite gsum_app. simpl. lia.
      * injection Hs as <-. unfold measure; simpl. lia.
    + destruct handleErrorStrategy; [destruct ec|]; injection Hs as <-;
        unfold measure; simpl; lia.
    + destruct (w =? 0); [|done]. injection Hs as <-. unfold measure; simpl. lia.
    + destruct (w =? 0); [|done].
      destruct handleErrorStrategy, ec, ae; injection Hs as <-;
        unfold measure; simpl; lia.
  - unfold go_step in Hs. unfold measure; simpl.
    destruct (g !! j) as [g0|] eqn:Hg; [|done].
    destruct g0; [destruct (items !! j) as [item|]| | |]; try done.
    + pose proof (gsum_insert g j GStart GRelease Hg) as Hi. simpl in Hi.
      destruct (process item) as [result [e|]];
        [destruct handleErrorStrategy|]; injection Hs as <-; simpl; lia.
    + destruct sm; [done|]. injection Hs as <-. simpl.
      pose proof (gsum_insert g j GRelease GDone Hg) as Hi. simpl in Hi. lia.
    + destruct w; [done|]. injection Hs as <-. simpl.
      pose proof (gsum_insert g j GDone GFinished Hg) as Hi. simpl in Hi. lia.
Qed.

Lemma count_of_pos f g : 0 < count_of f g -> exists j g0, g !! j = Some g0 /\ f g0 = true.
Proof.
  induction g as [|h g IH]; simpl; [lia|]. intros Hc.
  destruct (f h) eqn:Hf.
  - by exists 0, h.
  - destruct IH as (j & g0 & Hj & Hg0); [lia|]. by exists (S j), g0.
Qed.

Lemma count_of_lookup f g j g0 : g !! j = Some g0 -> f g0 = true -> 0 < count_of f g.
Proof.
  revert j. induction g as [|h g IH]; intros [|j] Hj Hf; simpl in *; try done.
  - injection Hj as ->. rewrite Hf. lia.
  - specialize (IH j Hj Hf). lia.
Qed.

(** A live goroutine can always move, given the invariant. *)
Lemma go_progress s j g0 :
  Inv s -> is_panic (pc s) = false -> gs s !! j = Some g0 -> alive g0 = true ->
  exists s', step s s'.
Proof.
  destruct s as [p sm w res ec ae g]. unfold Inv; simpl. intros HI Hp Hj Ha.
  rewrite Hp in HI. destruct HI as (Hlen & Hsem & Hcap & Hwg & _).
  exists (match go_step items handleErrorStrategy process j (mkState p sm w res ec ae g)
          with Some s' => s' | None => mkState p sm w res ec ae g end), (Go j).
  simpl. unfold go_step. rewrite Hj.
  destruct g0; try done.
  - assert (j < length items) as Hlt by (apply lookup_lt_Some in Hj; lia).
    apply lookup_lt_is_Some_2 in Hlt as [item ->].
    destruct (process item) as [result [e|]]; [destruct handleErrorStrategy|]; done.
  - pose proof (count_of_lookup holds g j GRelease Hj eq_refl).
    destruct sm; [lia|done].
  - pose proof (count_of_lookup alive g j GDone Hj eq_refl).
    destruct w; [lia|done].
Qed.

Lemma progress s :
  1 <= cap batchSize -> Inv s -> final (pc s) = false -> exists s', step s s'.
Proof.
  intros Hc HI Hf.
  assert (Hp : is_panic (pc s) = false) by (destruct (pc s); done).
  pose proof HI as HI'. unfold Inv in HI'. rewrite Hp in HI'.
  destruct HI' as (Hlen & Hsem & Hcap & Hwg & _).
  destruct s as [p sm w res ec ae g]; simpl in *.
  assert (Hmain : forall s', main_step items batchSize handleErrorStrategy
                               (mkState p sm w res ec ae g) = Some s' ->
                             exists s', step (mkState p sm w res ec ae g) s')
    by (intros s' Hs; by exists s', Main).
  assert (Hlive : 0 < w -> exists s', step (mkState p sm w res ec ae g) s').
  { intros Hw. destruct (count_of_pos alive g) as (j & g0 & Hj & Ha); [lia|].
    by eapply (go_progress _ j g0). }
  destruct p as [i|i|e| |r er|]; try done; simpl in Hmain.
  - destruct (items !! i); [|by eapply Hmain].
    destruct (sm <? cap batchSize) eqn:Hlt; [by eapply Hmain|].
    apply Nat.ltb_ge in Hlt.
    destruct (count_of_pos holds g) as (j & g0 & Hj & Hh); [lia|].
    eapply (go_progress _ j g0); try done. by destruct g0.
  - destruct handleErrorStrategy; [destruct ec|]; by eapply Hmain.
  - destruct w; [by eapply Hmain|]. apply Hlive. lia.
  - destruct w; [|apply Hlive; lia].
    destruct handleErrorStrategy, ec, ae; by eapply Hmain.
Qed.

Lemma reach_final s :
  1 <= cap batchSize -> Inv s -> exists s', rtc step s s' /\ final (pc s') = true.
Proof.
  intros Hc. remember (measure s) as m eqn:Hm. revert s Hm.
  induction m as [m IH] using lt_wf_ind. intros s -> HI.
  destruct (final (pc s)) eqn:Hf; [by exists s|].
  destruct (progress s Hc HI Hf) as [s1 Hs1].
  destruct (IH (measure s1) (measure_step _ _ Hs1) s1 eq_refl (Inv_step _ _ HI Hs1))
    as (s2 & Hr & Hf2).
  exists s2. split; [|done]. by eapply rtc_l.
Qed.

Lemma step_not_panic s s' : step s s' -> pc s' = MPanic -> pc s = MPanic.
Proof.
  destruct s as [p sm w res ec ae g]. intros [[|j] Hs] Hp; simpl in *.
  - destruct p as [i|i|e| |r er|]; try done.
    + destruct (items !! i); [destruct (sm <? cap batchSize)|]; try done;
        injection Hs as <-; done.
    + destruct handleErrorStrategy; [destruct ec|]; injection Hs as <-; done.
    + destruct (w =? 0); [|done]. injection Hs as <-. done.
    + destruct (w =? 0); [|done].
      destruct handleErrorStrategy, ec, ae; injection Hs as <-; done.
  - unfold go_step in Hs.
    destruct (g !! j) as [[]|]; [destruct (items !! j) as [item|]| | | |]; try done.
    + destruct (process item) as [result [e|]];
        [destruct handleErrorStrategy|]; injection Hs as <-; done.
    + destruct sm; [done|]. injection Hs as <-. done.
    + destruct w; [done|]. injection Hs as <-. done.
Qed.

Lemma rtc_not_panic s s' : rtc step s s' -> pc s' = MPanic -> pc s = MPanic.
Proof.
  induction 1 as [|s1 s2 s3 Hs Hr IH]; [done|].
  intros Hp. apply (step_not_panic s1 s2 Hs). by apply IH.
Qed.

(** The outcome of every return of [Run]. *)
Lemma Run_returns_outcome res err :
  Run_returns items batchSize handleErrorStrategy process zero res err ->
  outcome_ok res err.
Proof.
  intros (s & Hr & Hp). pose proof (Inv_reachable s Hr) as HI.
  unfold Inv in HI. rewrite Hp in HI. simpl in HI.
  destruct HI as (_ & _ & _ & _ & _ & _ & _ & Ho & _). done.
Qed.

(** For [batchSize >= 1], [Run] returns, whatever the interleaving. *)
Lemma Run_terminates :
  (0 < batchSize)%Z ->
  exists res err, Run_returns items batchSize handleErrorStrategy process zero res err.
Proof.
  intros Hb.
  assert (Hc : 1 <= cap batchSize) by (unfold cap; lia).
  destruct (reach_final _ Hc (Inv_init)) as (s & Hr & Hf).
  destruct (pc s) as [| | | |res err|] eqn:Hp; try done.
  - exists res, err. by exists s.
  - exfalso. pose proof (rtc_not_panic _ _ Hr Hp) as H0.
    unfold Run_init in H0. destruct (batchSize <? 0)%Z eqn:E; [lia|done].
Qed.

(** ** Schedules and exhaustive exploration *)

Lemma run_sched_rtc s ts s' :
  run_sched items batchSize handleErrorStrategy process s ts = Some s' -> rtc step s s'.
Proof.
  revert s. induction ts as [|t ts IH]; simpl; intros s Hs.
  - injection Hs as <-. apply rtc_refl.
  - destruct (exec items batchSize handleErrorStrategy process t s) as [s1|] eqn:He;
      [|done].
    eapply rtc_l; [by exists t|]. by apply IH.
Qed.

Definition threads (s : state R) : list thread :=
  Main :: map Go (seq 0 (length (gs s))).

Definition next (s : state R) : list (state R) :=
  omap (fun t => exec items batchSize handleErrorStrategy process t s) (threads s).

(** Every state reachable within [fuel] steps. *)
Fixpoint explore (fuel : nat) (s : state R) : list (state R) :=
  match fuel with
  | 0 => [s]
  | S f => s :: (next s ≫= explore f)
  end.

Lemma step_next s s' : step s s' -> s' ∈ next s.
Proof.
  intros [t Hs]. unfold next. apply list_elem_of_omap. exists t. split; [|done].
  apply list_elem_of_In. destruct t as [|j]; [by left|right].
  apply in_map. apply in_seq.
  destruct s as [p sm w res ec ae g]. simpl in *. unfold go_step in Hs.
  destruct (g !! j) eqn:Hg; [|done]. apply lookup_lt_Some in Hg. lia.
Qed.

Lemma explore_complete fuel s s' :
  rtc step s s' -> measure s < fuel -> s' ∈ explore fuel s.
Proof.
  intros Hr. revert fuel. induction Hr as [s|s s1 s' Hs Hr IH]; intros fuel Hf.
  - destruct fuel; simpl; left.
  - destruct fuel as [|f]; [lia|]. simpl. right.
    apply list_elem_of_bind. exists s1. split; [|by apply step_next].
    apply IH. pose proof (measure_step _ _ Hs). lia.
Qed.

End Invariant.

(** ** Concrete operations (spec §8 and the tests) *)

(** Squares the value, fails on 3 (spec §8, scenarios A and B). *)
Definition square_fail3 (n : nat) : nat * option error :=
  if n =? 3 then (0, Some (errorString "error processing item 3"))
  else (n * n, None).

(** Fails on odd numbers (lib_test.go, TestBatchErrorAggregation). *)
Definition odd_fail (n : nat) : nat * option error :=
  if Nat.odd n then
    (0, Some (errorString
               (String.append "error processing item "
                  (match n with 1 => "1" | 3 => "3" | 5 => "5" | _ => "?" end))))
  else (n, None).

(** Every item fails, with message "e0" for item 0 and "e1" otherwise. *)
Definition fail_both (n : nat) : unit * option error :=
  (tt, Some (errorString (if n =? 0 then "e0" else "e1"))).

(** A run returning "e0" or not yet returned. *)
Definition returns_e0 (s : state unit) : bool :=
  match pc s with
  | MReturned _ (Some e) => String.eqb (Error e) "e0"
  | MReturned _ None => false
  | _ => true
  end.

(** Under STOP_ON_ERROR, once [e] heads the error channel it is the error
    returned. *)
Definition heads_to {R} (e : error) (s : state R) : Prop :=
  (loop_phase (pc s) = true /\ head (errChan s) = Some e) \/
  pc s = MWaitEarly e \/ pc s = MReturned [] (Some e).

(** Once the main goroutine has received an error from [errChan] (or has
    returned), it launches nothing more. *)
Definition draining {R} (p : mpc R) : bool :=
  match p with MWaitEarly _ | MReturned _ _ => true | _ => false end.

(** States of a STOP_ON_ERROR run on [[0; 1]] with [batchSize = 2] where
    both items fail: [stop_s1] both goroutines spawned, none run;
    [stop_s2] goroutine 0 reported "e0"; [stop_s3] the run returned. *)
Definition stop_s1 : state unit := Eval vm_compute in
  from_option id (Run_init [0; 1] 2%Z tt)
    (run_sched [0; 1] 2%Z STOP_ON_ERROR fail_both (Run_init [0; 1] 2%Z tt)
       [Main; Main; Main; Main]).

Definition stop_s2 : state unit := Eval vm_compute in
  from_option id stop_s1 (run_sched [0; 1] 2%Z STOP_ON_ERROR fail_both stop_s1 [Go 0]).

Definition stop_s3 : state unit := Eval vm_compute in
  from_option id stop_s2
    (run_sched [0; 1] 2%Z STOP_ON_ERROR fail_both stop_s2
       [Go 1; Go 0; Go 0; Go 1; Go 1; Main; Main]).

(** A STOP_ON_ERROR run on [[0; 1]] with [batchSize = 2] in which
    goroutine 1 reports before goroutine 0. *)
Definition stop2_late : state unit := Eval vm_compute in
  from_option id (Run_init [0; 1] 2%Z tt)
    (run_sched [0; 1] 2%Z STOP_ON_ERROR fail_both (Run_init [0; 1] 2%Z tt)
       [Main; Main; Main; Main; Main; Go 1; Go 0; Go 1; Go 1; Go 0; Go 0; Main]).

(** A STOP_ON_ERROR run on [[0; 1]] with [batchSize = 1]. *)
Definition stop1_final : state unit := Eval vm_compute in
  from_option id (Run_init [0; 1] 1%Z tt)
    (run_sched [0; 1] 1%Z STOP_ON_ERROR fail_both (Run_init [0; 1] 1%Z tt)
       [Main; Main; Go 0; Go 0; Go 0; Main; Main; Go 1; Go 1; Go 1; Main]).

(** A STOP_ON_ERROR run on [[0; 1]] with [batchSize = 1], just after the
    main goroutine received "e0" with both goroutines launched. *)
Definition stop1_early : state unit := Eval vm_compute in
  from_option id (Run_init [0; 1] 1%Z tt)
    (run_sched [0; 1] 1%Z STOP_ON_ERROR fail_both (Run_init [0; 1] 1%Z tt)
       [Main; Main; Go 0; Go 0; Go 0; Main; Main]).

(** The schedule of spec §8 scenario B: CONTINUE_ON_ERROR on [1..5] with
    [batchSize = 2], each pair of goroutines run before the next spawns. *)
Definition schedB : list thread :=
  [Main; Main; Main; Main; Go 0; Go 0; Go 0; Go 1; Go 1; Go 1;
   Main; Main; Main; Main; Go 2; Go 2; Go 2; Go 3; Go 3; Go 3;
   Main; Main; Go 4; Go 4; Go 4; Main; Main].

Definition scenB_final : state nat := Eval vm_compute in
  from_option id (Run_init [1; 2; 3; 4; 5] 2%Z 0)
    (run_sched [1; 2; 3; 4; 5] 2%Z CONTINUE_ON_ERROR square_fail3
       (Run_init [1; 2; 3; 4; 5] 2%Z 0) schedB).

(** Scenario B, two goroutines admitted. *)
Definition scenB_busy : state nat := Eval vm_compute in
  from_option id (Run_init [1; 2; 3; 4; 5] 2%Z 0)
    (run_sched [1; 2; 3; 4; 5] 2%Z CONTINUE_ON_ERROR square_fail3
       (Run_init [1; 2; 3; 4; 5] 2%Z 0) [Main; Main; Main; Main]).

Lemma item_errors_nil {T R} (process : T -> R * option error) xs :
  Forall (fun x => snd (process x) = None) xs -> item_errors process xs = [].
Proof.
  induction 1 as [|x xs Hx _ IH]; [done|].
  unfold item_errors in *. simpl. unfold err_of at 1. rewrite Hx. done.
Qed.

Lemma map_lookup {A B} (f : A -> B) (l : list A) i x :
  l !! i = Some x -> map f l !! i = Some (f x).
Proof.
  revert i. induction l as [|y l IH]; intros [|i] Hi; simpl in *; try done.
  - by injection Hi as ->.
  - by apply IH.
Qed.

Lemma Run_returns_state {T R} items batchSize pol (process : T -> R * option error) zero s :
  rtc (step items batchSize pol process) (Run_init items batchSize zero) s ->
  forall res err, pc s = MReturned res err ->
  Forall (fun g0 => g0 = GFinished) (gs s) /\
  outcome_ok items pol process zero res err /\
  (pol = false -> length (gs s) = length items).
Proof.
  intros Hr res err Hp. pose proof (Inv_reachable items batchSize pol process zero s Hr) as HI.
  unfold Inv in HI. rewrite Hp in HI. simpl in HI.
  destruct HI as (_ & _ & _ & _ & _ & _ & Hpc). done.
Qed.

Lemma go_step_shape {T R} items pol (process : T -> R * option error) j (s s' : state R) :
  go_step items pol process j s = Some s' ->
  pc s' = pc s /\ gs s' <> [] /\ length (gs s') = length (gs s) /\
  exists l, errChan s' = errChan s ++ l.
Proof.
  destruct s as [p sm w res ec ae g]. unfold go_step. simpl.
  destruct (g !! j) as [[]|] eqn:Hg; [destruct (items !! j) as [item|]| | | |];
    try done; intros Hs;
    (assert (Hne : forall g', <[j:=g']> g <> [])
       by (intros g' Heq; apply lookup_lt_Some in Hg;
           rewrite <- (length_insert g j g'), Heq in Hg; simpl in Hg; lia)).
  - destruct (process item) as [result [e|]]; [destruct pol|]; injection Hs as <-;
      simpl; rewrite ?length_insert; repeat split; try apply Hne.
    + destruct (length ec <? length items); [by exists [e]|exists []; by rewrite app_nil_r].
    + exists []; by rewrite app_nil_r.
    + exists []; by rewrite app_nil_r.
  - destruct sm; [done|]. injection Hs as <-. simpl. rewrite ?length_insert.
    repeat split; [apply Hne|]. exists []; by rewrite app_nil_r.
  - destruct w; [done|]. injection Hs as <-. simpl. rewrite ?length_insert.
    repeat split; [apply Hne|]. exists []; by rewrite app_nil_r.
Qed.

Lemma heads_to_step {T R} items batchSize (process : T -> R * option error) e (s s' : state R) :
  step items batchSize STOP_ON_ERROR process s s' -> heads_to e s -> heads_to e s'.
Proof.
  intros [[|j] Hs] HP; simpl in Hs.
  - destruct s as [p sm w res ec ae g]. unfold heads_to in *; simpl in *.
    destruct p as [i|i|e'| |r er|]; simpl in Hs; try done.
    + destruct HP as [[_ Hh]|[Hp|Hp]]; try discriminate.
      destruct (items !! i); [destruct (sm <? cap batchSize)|]; try done;
        injection Hs as <-; left; done.
    + destruct HP as [[_ Hh]|[Hp|Hp]]; try discriminate.
      destruct ec as [|e0 ec']; simpl in Hh; [done|]. injection Hh as ->.
      injection Hs as <-. simpl. right; left; done.
    + destruct HP as [[Hl _]|[Hp|Hp]]; try discriminate. injection Hp as ->.
      destruct (w =? 0); [|done]. injection Hs as <-. simpl. right; right; done.
    + destruct HP as [[_ Hh]|[Hp|Hp]]; try discriminate.
      destruct (w =? 0); [|done].
      destruct ec as [|e0 ec']; simpl in Hh; [done|]. injection Hh as ->.
      injection Hs as <-. simpl. right; right; done.
  - apply go_step_shape in Hs as (Hp & _ & _ & l & He).
    unfold heads_to in *. rewrite Hp, He.
    destruct HP as [[Hl Hh]|HP]; [left|by right].
    split; [done|]. destruct (errChan s); [done|]. done.
Qed.

Lemma heads_to_rtc {T R} items batchSize (process : T -> R * option error) e (s s' : state R) :
  rtc (step items batchSize STOP_ON_ERROR process) s s' -> heads_to e s -> heads_to e s'.
Proof.
  induction 1 as [|s1 s2 s3 Hs Hr IH]; [done|].
  intros HP. apply IH. by eapply heads_to_step.
Qed.

Lemma draining_step {T R} items batchSize pol (process : T -> R * option error)
    (s s' : state R) :
  step items batchSize pol process s s' -> draining (pc s) = true ->
  draining (pc s') = true /\ length (gs s') = length (gs s).
Proof.
  intros [[|j] Hs] Hd.
  - destruct s as [[] sm w res ec ae g]; simpl in Hd; try done;
      simpl in Hs; destruct (w =? 0); try done; injection Hs as <-; done.
  - apply go_step_shape in Hs as (-> & _ & -> & _). done.
Qed.

Lemma draining_rtc {T R} items batchSize pol (process : T -> R * option error)
    (s s' : state R) :
  rtc (step items batchSize pol process) s s' -> draining (pc s) = true ->
  length (gs s') = length (gs s).
Proof.
  induction 1 as [|s1 s2 s3 H12 H23 IH]; [done|].
  intros Hd. destruct (draining_step _ _ _ _ _ _ H12 Hd) as [Hd2 Hl].
  rewrite <- Hl. by apply IH.
Qed.

Lemma stuck_rtc {T R} items batchSize pol (process : T -> R * option error)
    (s s' : state R) :
  (forall s'', ~ step items batchSize pol process s s'') ->
  rtc (step items batchSize pol process) s s' -> s' = s.
Proof.
  intros Hst Hr. inversion Hr as [|? s2 ? H12]; [done|]. by destruct (Hst s2).
Qed.

(** ** Claims *)

(** C1: for [batchSize >= 1], any strategy, and inputs on which [process]
    succeeds for every item (the empty input included), [Run] returns, and
    every return is the slice of [process] outputs in input order with a
    [nil] error. *)
Theorem Run_all_succeed {T R} (items : list T) (batchSize : Z)
    (handleErrorStrategy : errorHandler) (process : T -> R * option error) (zero : R) :
  (1 <= batchSize)%Z ->
  Forall (fun x => snd (process x) = None) items ->
  (exists res err, Run_returns items batchSize handleErrorStrategy process zero res err) /\
  (forall res err, Run_returns items batchSize handleErrorStrategy process zero res err ->
     res = map (fun x => fst (process x)) items /\ err = None).
Proof.
  intros Hb Hok. split; [apply Run_terminates; lia|].
  intros res err Hr. apply Run_returns_outcome in Hr. unfold outcome_ok in Hr.
  rewrite (item_errors_nil process items Hok) in Hr.
  assert (Hm : map (value_or_zero process zero) items = map (fun x => fst (process x)) items).
  { apply map_ext_in. intros x Hx. rewrite Forall_forall in Hok.
    apply list_elem_of_In in Hx. specialize (Hok x Hx).
    unfold value_or_zero. destruct (process x) as [r [e|]]; simpl in *; done. }
  rewrite <- Hm. destruct handleErrorStrategy; destruct Hr as [-> ->]; done.
Qed.

Lemma Run_all_succeed_witness :
  (1 <= 2)%Z /\ Forall (fun x => snd (square_fail3 x) = None) [1; 2; 4] /\
  ((exists res err, Run_returns [1; 2; 4] 2%Z STOP_ON_ERROR square_fail3 0 res err) /\
   (forall res err, Run_returns [1; 2; 4] 2%Z STOP_ON_ERROR square_fail3 0 res err ->
      res = map (fun x => fst (square_fail3 x)) [1; 2; 4] /\ err = None)).
Proof.
  assert (Hf : Forall (fun x => snd (square_fail3 x) = None) [1; 2; 4])
    by (repeat constructor).
  split; [lia|]. split; [exact Hf|].
  apply Run_all_succeed; [lia|exact Hf].
Defined.

(** C2 (counterexample): under STOP_ON_ERROR a second failure report is
    not dropped: both reports sit in [errChan] (capacity [len(items)]). *)
Lemma Run_stop_second_report_queued :
  exists s, rtc (step [0; 1] 2%Z STOP_ON_ERROR fail_both) (Run_init [0; 1] 2%Z tt) s /\
            errChan s = [errorString "e0"; errorString "e1"].
Proof.
  exists (from_option id stop_s2
            (run_sched [0; 1] 2%Z STOP_ON_ERROR fail_both stop_s2 [Go 1])).
  split; [|vm_compute; reflexivity].
  apply (run_sched_rtc [0; 1] 2%Z STOP_ON_ERROR fail_both _
           [Main; Main; Main; Main; Go 0; Go 1]).
  vm_compute. reflexivity.
Qed.

(** C2 (amended): under STOP_ON_ERROR, if a failure is the first one sent
    to [errChan] (before it, [errChan] was empty and no goroutine had
    failed), every return of that run is [(nil, that failure)].  In
    general, when some item fails every return is [nil] with a failure of
    a failing item; and while the main goroutine has not received from
    [errChan], the channel holds every failure reported so far (none is
    dropped). *)
Theorem Run_stop_on_error_first_report {T R} (items : list T) (batchSize : Z)
    (process : T -> R * option error) (zero : R) (s1 s2 s3 : state R) e res err :
  rtc (step items batchSize STOP_ON_ERROR process) (Run_init items batchSize zero) s1 ->
  loop_phase (pc s1) = true -> errChan s1 = [] ->
  step items batchSize STOP_ON_ERROR process s1 s2 -> errChan s2 = [e] ->
  rtc (step items batchSize STOP_ON_ERROR process) s2 s3 ->
  pc s3 = MReturned res err ->
  ran_errors process (gs s1) items = [] /\
  e ∈ item_errors process items /\ res = [] /\ err = Some e /\
  (item_errors process items <> [] ->
     forall res' err', Run_returns items batchSize STOP_ON_ERROR process zero res' err' ->
     res' = [] /\ exists e', err' = Some e' /\ e' ∈ item_errors process items) /\
  (forall s, rtc (step items batchSize STOP_ON_ERROR process)
               (Run_init items batchSize zero) s ->
     loop_phase (pc s) = true -> errChan s ≡ₚ ran_errors process (gs s) items).
Proof.
  intros Hr1 Hl1 He1 Hs12 He2 Hr23 Hp3.
  assert (Hq : forall s, rtc (step items batchSize STOP_ON_ERROR process)
                           (Run_init items batchSize zero) s ->
               loop_phase (pc s) = true -> errChan s ≡ₚ ran_errors process (gs s) items).
  { intros s Hr Hl. pose proof (Inv_reachable items batchSize STOP_ON_ERROR process zero s Hr)
      as HI.
    unfold Inv in HI. destruct (is_panic (pc s)) eqn:Hp.
    { by destruct (pc s). }
    destruct HI as (_ & _ & _ & _ & _ & [_ Hq] & _). by apply Hq. }
  assert (Hh2 : heads_to e s2).
  { destruct Hs12 as [[|j] Hs].
    - exfalso. destruct s1 as [p sm w r0 ec ae g]. simpl in *. subst ec.
      destruct p; simpl in Hs; repeat case_match; try done;
        injection Hs as <-; simpl in He2; done.
    - apply go_step_shape in Hs as (Hp & _ & _ & l & Hl). left.
      rewrite Hp, He2. done. }
  pose proof (heads_to_rtc _ _ _ _ _ _ Hr23 Hh2) as Hh3.
  unfold heads_to in Hh3. rewrite Hp3 in Hh3.
  destruct Hh3 as [[Hl _]|[Hx|Hx]]; try discriminate.
  injection Hx as -> ->.
  assert (Hr3 : Run_returns items batchSize STOP_ON_ERROR process zero [] (Some e)).
  { exists s3. split; [|done]. eapply rtc_trans; [exact Hr1|].
    eapply rtc_l; [exact Hs12|exact Hr23]. }
  assert (Hout : forall res' err',
             Run_returns items batchSize STOP_ON_ERROR process zero res' err' ->
             item_errors process items <> [] ->
             res' = [] /\ exists e', err' = Some e' /\ e' ∈ item_errors process items).
  { intros res' err' Hr Hne. apply Run_returns_outcome in Hr. unfold outcome_ok in Hr.
    simpl in Hr. destruct (item_errors process items); done. }
  split.
  { pose proof (Hq s1 Hr1 Hl1) as H. rewrite He1 in H.
    symmetry. by apply Permutation_nil_l. }
  split.
  { apply Run_returns_outcome in Hr3. unfold outcome_ok in Hr3. simpl in Hr3.
    destruct (item_errors process items); [by destruct Hr3|].
    destruct Hr3 as [_ (e' & He' & Hin)]. injection He' as ->. done. }
  split; [done|]. split; [done|]. split; [|done].
  intros Hne res' err' Hr. by apply Hout.
Qed.

Lemma Run_stop_on_error_first_report_witness :
  rtc (step [0; 1] 2%Z STOP_ON_ERROR fail_both) (Run_init [0; 1] 2%Z tt) stop_s1 /\
  step [0; 1] 2%Z STOP_ON_ERROR fail_both stop_s1 stop_s2 /\
  rtc (step [0; 1] 2%Z STOP_ON_ERROR fail_both) stop_s2 stop_s3 /\
  pc stop_s3 = MReturned [] (Some (errorString "e0")) /\
  ran_errors fail_both (gs stop_s1) [0; 1] = [] /\
  errorString "e0" ∈ item_errors fail_both [0; 1].
Proof.
  assert (H1 : rtc (step [0; 1] 2%Z STOP_ON_ERROR fail_both)
                 (Run_init [0; 1] 2%Z tt) stop_s1)
    by (apply (run_sched_rtc _ _ _ _ _ [Main; Main; Main; Main]); vm_compute; reflexivity).
  assert (H2 : step [0; 1] 2%Z STOP_ON_ERROR fail_both stop_s1 stop_s2)
    by (exists (Go 0); vm_compute; reflexivity).
  assert (H3 : rtc (step [0; 1] 2%Z STOP_ON_ERROR fail_both) stop_s2 stop_s3)
    by (apply (run_sched_rtc _ _ _ _ _ [Go 1; Go 0; Go 0; Go 1; Go 1; Main; Main]);
        vm_compute; reflexivity).
  assert (H4 : pc stop_s3 = MReturned [] (Some (errorString "e0")))
    by (vm_compute; reflexivity).
  destruct (Run_stop_on_error_first_report [0; 1] 2%Z fail_both tt
              stop_s1 stop_s2 stop_s3 (errorString "e0") [] (Some (errorString "e0"))
              H1 (eq_refl) (eq_refl) H2 (eq_refl) H3 H4) as (Hr & Hin & _).
  repeat split; assumption.
Defined.

(** C3: under CONTINUE_ON_ERROR every item gets a goroutine, and every
    return of [Run] is a slice of [len(items)] slots, holding the computed
    value where [process] succeeded and the zero value where it failed,
    with error [aggregateErrors] of the failures (in some order) when at
    least one item failed, [nil] otherwise. *)
Theorem Run_continue_on_error {T R} (items : list T) (batchSize : Z)
    (process : T -> R * option error) (zero : R) (s : state R) res err :
  rtc (step items batchSize CONTINUE_ON_ERROR process) (Run_init items batchSize zero) s ->
  pc s = MReturned res err ->
  length (gs s) = length items /\ Forall (fun g0 => g0 = GFinished) (gs s) /\
  length res = length items /\
  (forall i x, items !! i = Some x -> snd (process x) = None ->
     res !! i = Some (fst (process x))) /\
  (forall i x e, items !! i = Some x -> snd (process x) = Some e -> res !! i = Some zero) /\
  (item_errors process items = [] -> err = None) /\
  (item_errors process items <> [] ->
     exists es, es ≡ₚ item_errors process items /\ err = Some (aggregateErrors es)).
Proof.
  intros Hr Hp.
  destruct (Run_returns_state _ _ _ _ _ s Hr res err Hp) as (Hf & Ho & Hl).
  unfold outcome_ok in Ho. simpl in Ho. destruct Ho as [-> Herr].
  split; [by apply Hl|]. split; [done|]. split; [apply length_map|].
  split; [|split; [|split]].
  - intros i x Hx Hok. rewrite (map_lookup _ _ _ _ Hx). unfold value_or_zero.
    destruct (process x) as [r [e|]]; simpl in *; done.
  - intros i x e Hx Hko. rewrite (map_lookup _ _ _ _ Hx). unfold value_or_zero.
    destruct (process x) as [r [e'|]]; simpl in *; done.
  - intros Hn. rewrite Hn in Herr. done.
  - intros Hn. destruct (item_errors process items); done.
Qed.

Lemma Run_continue_on_error_witness :
  rtc (step [1; 2; 3; 4; 5] 2%Z CONTINUE_ON_ERROR square_fail3)
    (Run_init [1; 2; 3; 4; 5] 2%Z 0) scenB_final /\
  pc scenB_final = MReturned [1; 4; 0; 16; 25]
                     (Some (aggregateErrors [errorString "error processing item 3"])) /\
  length (gs scenB_final) = 5.
Proof.
  assert (Hr : rtc (step [1; 2; 3; 4; 5] 2%Z CONTINUE_ON_ERROR square_fail3)
                 (Run_init [1; 2; 3; 4; 5] 2%Z 0) scenB_final)
    by (apply (run_sched_rtc _ _ _ _ _ schedB); vm_compute; reflexivity).
  assert (Hp : pc scenB_final = MReturned [1; 4; 0; 16; 25]
                 (Some (aggregateErrors [errorString "error processing item 3"])))
    by (vm_compute; reflexivity).
  destruct (Run_continue_on_error _ _ _ _ _ _ _ Hr Hp) as (Hl & _).
  split; [exact Hr|]. split; [exact Hp|]. exact Hl.
Defined.

(** C4: in every reachable state, the goroutines holding a semaphore
    token (admitted and not yet released; this includes every goroutine
    whose [process] call is in flight) number at most [batchSize]. *)
Theorem Run_admission_bound {T R} (items : list T) (batchSize : Z)
    (handleErrorStrategy : errorHandler) (process : T -> R * option error) (zero : R)
    (s : state R) :
  rtc (step items batchSize handleErrorStrategy process) (Run_init items batchSize zero) s ->
  count_of holds (gs s) <= Z.to_nat batchSize.
Proof.
  intros Hr. pose proof (Inv_reachable _ _ _ _ _ s Hr) as HI. unfold Inv in HI.
  destruct (is_panic (pc s)).
  - destruct HI as [-> _]. simpl. lia.
  - destruct HI as (_ & Hsem & Hcap & _). unfold cap in Hcap. lia.
Qed.

Lemma Run_admission_bound_witness :
  rtc (step [1; 2; 3; 4; 5] 2%Z CONTINUE_ON_ERROR square_fail3)
    (Run_init [1; 2; 3; 4; 5] 2%Z 0) scenB_busy /\
  count_of holds (gs scenB_busy) = 2 /\
  count_of holds (gs scenB_busy) <= Z.to_nat 2.
Proof.
  assert (Hr : rtc (step [1; 2; 3; 4; 5] 2%Z CONTINUE_ON_ERROR square_fail3)
                 (Run_init [1; 2; 3; 4; 5] 2%Z 0) scenB_busy)
    by (apply (run_sched_rtc _ _ _ _ _ [Main; Main; Main; Main]); vm_compute; reflexivity).
  split; [exact Hr|]. split; [vm_compute; reflexivity|].
  exact (Run_admission_bound _ _ _ _ _ _ Hr).
Defined.

(** C10: under CONTINUE_ON_ERROR with at least one failure, the returned
    error is a flat [errorString] whose message is "multiple errors: "
    followed by the failures' messages joined by "; ", also when a single
    item failed. *)
Theorem Run_continue_error_message {T R} (items : list T) (batchSize : Z)
    (process : T -> R * option error) (zero : R) res err :
  Run_returns items batchSize CONTINUE_ON_ERROR process zero res err ->
  item_errors process items <> [] ->
  exists es, es ≡ₚ item_errors process items /\
    err = Some (errorString (String.append "multiple errors: "
                               (String.concat "; " (map Error es)))).
Proof.
  intros Hr Hn. apply Run_returns_outcome in Hr. unfold outcome_ok in Hr. simpl in Hr.
  destruct Hr as [_ Herr]. destruct (item_errors process items); done.
Qed.

Lemma Run_continue_error_message_witness :
  Run_returns [1; 2; 3; 4; 5] 2%Z CONTINUE_ON_ERROR square_fail3 0 [1; 4; 0; 16; 25]
    (Some (errorString "multiple errors: error processing item 3")) /\
  item_errors square_fail3 [1; 2; 3; 4; 5] = [errorString "error processing item 3"] /\
  exists es, es ≡ₚ [errorString "error processing item 3"] /\
    Some (errorString "multiple errors: error processing item 3")
    = Some (errorString (String.append "multiple errors: "
                           (String.concat "; " (map Error es)))).
Proof.
  assert (Hr : Run_returns [1; 2; 3; 4; 5] 2%Z CONTINUE_ON_ERROR square_fail3 0
                 [1; 4; 0; 16; 25]
                 (Some (errorString "multiple errors: error processing item 3"))).
  { exists scenB_final. split; [|vm_compute; reflexivity].
    apply (run_sched_rtc _ _ _ _ _ schedB); vm_compute; reflexivity. }
  assert (Hi : item_errors square_fail3 [1; 2; 3; 4; 5]
               = [errorString "error processing item 3"]) by reflexivity.
  split; [exact Hr|]. split; [exact Hi|].
  rewrite <- Hi. apply (Run_continue_error_message _ _ _ _ _ _ Hr).
  rewrite Hi. done.
Defined.

(** C5 (code_bug, at the input of lib_test.go TestBatchErrorAggregation):
    [IsBatchError nil] is false and [UnwrapBatchError] of a flat error is
    that error alone, as specified; but with three failing items the error
    [Run] returns under CONTINUE_ON_ERROR is the flat [errorString] of
    [aggregateErrors], so [IsBatchError] is false and [UnwrapBatchError]
    yields one element, not three. *)
Theorem Run_aggregate_unwraps_to_one :
  IsBatchError None = false /\
  UnwrapBatchError (Some (errorString "error processing item 1"))
    = [Some (errorString "error processing item 1")] /\
  length (item_errors odd_fail [1; 2; 3; 4; 5]) = 3 /\
  (exists res err, Run_returns [1; 2; 3; 4; 5] 2%Z CONTINUE_ON_ERROR odd_fail 0 res err) /\
  (forall res err, Run_returns [1; 2; 3; 4; 5] 2%Z CONTINUE_ON_ERROR odd_fail 0 res err ->
     err <> None /\ IsBatchError err = false /\ length (UnwrapBatchError err) = 1).
Proof.
  split; [done|]. split; [done|]. split; [done|].
  split; [apply Run_terminates; lia|].
  intros res err Hr.
  destruct (Run_continue_error_message _ _ _ _ _ _ Hr) as (es & _ & ->); [done|].
  done.
Qed.

(** C6: [Process] returns exactly the error component of [Run] under
    STOP_ON_ERROR with the wrapper that returns [struct{}{}] and the
    error of [process], and panics exactly when that [Run] panics. *)
Theorem Process_is_Run_stop {T} (items : list T) (batchSize : Z)
    (process : T -> option error) :
  (forall err, Process_returns items batchSize process err <->
     exists res, Run_returns items batchSize STOP_ON_ERROR
                   (fun item => (tt, process item)) tt res err) /\
  (Process_panics items batchSize process <->
     Run_panics items batchSize STOP_ON_ERROR (fun item => (tt, process item)) tt).
Proof. split; [intros err|]; reflexivity. Qed.

(** C7 (counterexample): with two failing items under STOP_ON_ERROR,
    [batchSize = 2] can return the failure "e1", which no interleaving of
    [batchSize = 1] returns (all of them return "e0"). *)
Lemma Run_batch_size_changes_error :
  Run_returns [0; 1] 2%Z STOP_ON_ERROR fail_both tt [] (Some (errorString "e1")) /\
  ~ Run_returns [0; 1] 1%Z STOP_ON_ERROR fail_both tt [] (Some (errorString "e1")).
Proof.
  split.
  - exists stop2_late. split; [|vm_compute; reflexivity].
    apply (run_sched_rtc _ _ _ _ _
             [Main; Main; Main; Main; Main; Go 1; Go 0; Go 1; Go 1; Go 0; Go 0; Main]).
    vm_compute. reflexivity.
  - intros (s & Hr & Hp).
    assert (Hin : s ∈ explore [0; 1] 1%Z STOP_ON_ERROR fail_both 15
                        (Run_init [0; 1] 1%Z tt)).
    { apply explore_complete; [exact Hr|]. vm_compute. lia. }
    assert (Hall : forallb returns_e0
                     (explore [0; 1] 1%Z STOP_ON_ERROR fail_both 15
                        (Run_init [0; 1] 1%Z tt)) = true)
      by (vm_compute; reflexivity).
    rewrite forallb_forall in Hall. apply list_elem_of_In in Hin.
    specialize (Hall s Hin). unfold returns_e0 in Hall. rewrite Hp in Hall.
    vm_compute in Hall. discriminate.
Qed.

(** C7 (amended): for [batchSize >= len(items)] and for [batchSize = 1],
    every return has the same result slice, and the errors agree on being
    [nil]; when not [nil], under STOP_ON_ERROR each is a failure of some
    failing item, under CONTINUE_ON_ERROR each is [aggregateErrors] of all
    failures, the order of which may differ. *)
Theorem Run_batch_size_outcomes {T R} (items : list T) (batchSize : Z)
    (handleErrorStrategy : errorHandler) (process : T -> R * option error) (zero : R)
    res1 err1 res2 err2 :
  (Z.of_nat (length items) <= batchSize)%Z ->
  Run_returns items 1%Z handleErrorStrategy process zero res1 err1 ->
  Run_returns items batchSize handleErrorStrategy process zero res2 err2 ->
  res1 = res2 /\
  match err1, err2 with
  | None, None => True
  | Some e1, Some e2 =>
      if handleErrorStrategy
      then e1 ∈ item_errors process items /\ e2 ∈ item_errors process items
      else exists es1 es2, es1 ≡ₚ item_errors process items /\
             es2 ≡ₚ item_errors process items /\
             e1 = aggregateErrors es1 /\ e2 = aggregateErrors es2
  | _, _ => False
  end.
Proof.
  intros _ H1 H2. apply Run_returns_outcome in H1, H2. unfold outcome_ok in H1, H2.
  destruct handleErrorStrategy; destruct (item_errors process items).
  - destruct H1 as [-> ->], H2 as [-> ->]. done.
  - destruct H1 as [-> (e1 & -> & He1)], H2 as [-> (e2 & -> & He2)]. done.
  - destruct H1 as [-> ->], H2 as [-> ->]. done.
  - destruct H1 as [-> (es1 & Hp1 & ->)], H2 as [-> (es2 & Hp2 & ->)].
    split; [done|]. by exists es1, es2.
Qed.

Lemma Run_batch_size_outcomes_witness :
  (Z.of_nat (length [0; 1]) <= 2)%Z /\
  Run_returns [0; 1] 1%Z STOP_ON_ERROR fail_both tt [] (Some (errorString "e0")) /\
  Run_returns [0; 1] 2%Z STOP_ON_ERROR fail_both tt [] (Some (errorString "e1")) /\
  errorString "e1" ∈ item_errors fail_both [0; 1].
Proof.
  assert (H1 : Run_returns [0; 1] 1%Z STOP_ON_ERROR fail_both tt []
                 (Some (errorString "e0"))).
  { exists stop1_final. split; [|vm_compute; reflexivity].
    apply (run_sched_rtc _ _ _ _ _
             [Main; Main; Go 0; Go 0; Go 0; Main; Main; Go 1; Go 1; Go 1; Main]).
    vm_compute. reflexivity. }
  assert (H2 : Run_returns [0; 1] 2%Z STOP_ON_ERROR fail_both tt []
                 (Some (errorString "e1"))).
  { exists stop2_late. split; [|vm_compute; reflexivity].
    apply (run_sched_rtc _ _ _ _ _
             [Main; Main; Main; Main; Main; Go 1; Go 0; Go 1; Go 1; Go 0; Go 0; Main]).
    vm_compute. reflexivity. }
  destruct (Run_batch_size_outcomes [0; 1] 2%Z STOP_ON_ERROR fail_both tt _ _ _ _
              ltac:(simpl; lia) H1 H2) as [_ [_ He]].
  split; [simpl; lia|]. split; [exact H1|]. split; [exact H2|exact He].
Defined.

(** C8: under STOP_ON_ERROR, once the main goroutine has received an
    error from [errChan] it launches no further goroutine (the number of
    launched goroutines stays fixed on every continuation), and in every
    state where [Run] has returned all launched goroutines have finished. *)
Theorem Run_early_stop_joins {T R} (items : list T) (batchSize : Z)
    (handleErrorStrategy : errorHandler) (process : T -> R * option error) (zero : R)
    (s : state R) :
  rtc (step items batchSize handleErrorStrategy process)
      (Run_init items batchSize zero) s ->
  (forall e, pc s = MWaitEarly e ->
     handleErrorStrategy = STOP_ON_ERROR /\
     forall s', rtc (step items batchSize handleErrorStrategy process) s s' ->
       length (gs s') = length (gs s)) /\
  (forall res err, pc s = MReturned res err ->
     Forall (fun g0 => g0 = GFinished) (gs s)).
Proof.
  intros Hr. pose proof (Inv_reachable items batchSize handleErrorStrategy process zero s Hr)
    as Hinv.
  unfold Inv in Hinv. split.
  - intros e Hp. rewrite Hp in Hinv. simpl in Hinv.
    destruct Hinv as (_ & _ & _ & _ & _ & _ & Hpol & _). split; [exact Hpol|].
    intros s' Hr'. apply (draining_rtc _ _ _ _ _ _ Hr'). by rewrite Hp.
  - intros res err Hp. rewrite Hp in Hinv. simpl in Hinv.
    destruct Hinv as (_ & _ & _ & _ & _ & _ & Hf & _). exact Hf.
Qed.

Lemma Run_early_stop_joins_witness :
  rtc (step [0; 1] 1%Z STOP_ON_ERROR fail_both) (Run_init [0; 1] 1%Z tt) stop1_early /\
  pc stop1_early = MWaitEarly (errorString "e0") /\
  length (gs stop1_early) = 2 /\
  forall s', rtc (step [0; 1] 1%Z STOP_ON_ERROR fail_both) stop1_early s' ->
    length (gs s') = 2.
Proof.
  assert (Hr : rtc (step [0; 1] 1%Z STOP_ON_ERROR fail_both)
                 (Run_init [0; 1] 1%Z tt) stop1_early).
  { apply (run_sched_rtc _ _ _ _ _ [Main; Main; Go 0; Go 0; Go 0; Main; Main]).
    vm_compute. reflexivity. }
  destruct (Run_early_stop_joins [0; 1] 1%Z STOP_ON_ERROR fail_both tt stop1_early Hr)
    as [H _].
  destruct (H (errorString "e0") ltac:(vm_compute; reflexivity)) as [_ Hlen].
  split; [exact Hr|]. split; [vm_compute; reflexivity|].
  split; [vm_compute; reflexivity|].
  intros s' Hs'. rewrite (Hlen s' Hs'). vm_compute. reflexivity.
Defined.

(** C9 (counterexample): with [batchSize = 0] and no items the loop body
    never runs, so [Run] returns [([], nil)]. *)
Lemma Run_zero_batch_empty_returns :
  Run_returns (T:=nat) [] 0%Z STOP_ON_ERROR square_fail3 0 [] None.
Proof.
  eexists. split.
  - apply (run_sched_rtc _ _ _ _ _ [Main; Main]). vm_compute. reflexivity.
  - reflexivity.
Qed.

(** C9 (amended): for [batchSize <= 0]: a negative [batchSize] makes
    [make(chan struct{}, batchSize)] panic and [Run] never returns; with
    [batchSize = 0] and at least one item no step is possible from the
    start, so [Run] never returns; with [batchSize = 0] and no items [Run]
    returns [([], nil)] and nothing else. *)
Theorem Run_nonpositive_batch {T R} (items : list T) (batchSize : Z)
    (handleErrorStrategy : errorHandler) (process : T -> R * option error) (zero : R) :
  (batchSize <= 0)%Z ->
  ((batchSize < 0)%Z ->
     Run_panics items batchSize handleErrorStrategy process zero /\
     forall res err, ~ Run_returns items batchSize handleErrorStrategy process zero res err) /\
  (batchSize = 0%Z -> items <> [] ->
     (forall s, rtc (step items batchSize handleErrorStrategy process)
                  (Run_init items batchSize zero) s -> s = Run_init items batchSize zero) /\
     forall res err, ~ Run_returns items batchSize handleErrorStrategy process zero res err) /\
  (batchSize = 0%Z -> items = [] ->
     Run_returns items batchSize handleErrorStrategy process zero [] None /\
     forall res err, Run_returns items batchSize handleErrorStrategy process zero res err ->
       res = [] /\ err = None).
Proof.
  intros Hle. split; [|split].
  - intros Hlt.
    assert (Hinit : Run_init items batchSize zero = mkState MPanic 0 0 [] [] [] []).
    { unfold Run_init. by rewrite (proj2 (Z.ltb_lt _ _) Hlt). }
    assert (Hst : forall s, rtc (step items batchSize handleErrorStrategy process)
                    (Run_init items batchSize zero) s -> s = Run_init items batchSize zero).
    { intros s. apply stuck_rtc. intros s'' [[|j] Hs]; rewrite Hinit in Hs; simpl in Hs.
      - done.
      - by rewrite ?lookup_nil in Hs. }
    split.
    + exists (Run_init items batchSize zero). split; [apply rtc_refl|]. by rewrite Hinit.
    + intros res err (s & Hr & Hp). apply Hst in Hr. subst s. by rewrite Hinit in Hp.
  - intros -> Hne. destruct items as [|x xs]; [done|].
    assert (Hst : forall s, rtc (step (x :: xs) 0%Z handleErrorStrategy process)
                    (Run_init (x :: xs) 0%Z zero) s -> s = Run_init (x :: xs) 0%Z zero).
    { intros s. apply stuck_rtc. intros s'' [[|j] Hs]; simpl in Hs.
      - done.
      - by rewrite ?lookup_nil in Hs. }
    split; [exact Hst|].
    intros res err (s & Hr & Hp). apply Hst in Hr. subst s. done.
  - intros -> ->. split.
    + destruct handleErrorStrategy; (eexists; split;
        [eapply rtc_l; [exists Main; reflexivity|];
         eapply rtc_l; [exists Main; reflexivity|]; apply rtc_refl
        |reflexivity]).
    + intros res err Hr. apply Run_returns_outcome in Hr. unfold outcome_ok in Hr.
      destruct handleErrorStrategy; simpl in Hr; destruct Hr as [-> ->]; done.
Qed.

Lemma Run_nonpositive_batch_witness :
  (0 <= 0)%Z /\
  forall res err, ~ Run_returns [1] 0%Z STOP_ON_ERROR square_fail3 0 res err.
Proof.
  split; [lia|].
  destruct (Run_nonpositive_batch [1] 0%Z STOP_ON_ERROR square_fail3 0 ltac:(lia))
    as (_ & H & _).
  exact (proj2 (H eq_refl ltac:(discriminate))).
Defined.

(** ** Further properties of [Run], [Process] and [aggregateErrors] *)

(** [x] occurs in [s] ([strings.Contains(s, x)]). *)
Definition substring_of (x s : string) : Prop :=
  exists pre post, s = String.append pre (String.append x post).

Lemma string_append_assoc (a b c : string) :
  String.append a (String.append b c) = String.append (String.append a b) c.
Proof. induction a as [|ch a IH]; simpl; [done|]. by rewrite IH. Qed.

Lemma string_append_nil_r (a : string) : String.append a "" = a.
Proof. induction a as [|ch a IH]; simpl; [done|]. by rewrite IH. Qed.

Lemma concat_substring sep (l : list string) x :
  x ∈ l -> substring_of x (String.concat sep l).
Proof.
  induction l as [|y l IH]; intros Hx; [by apply not_elem_of_nil in Hx|].
  apply elem_of_cons in Hx as [->|Hx].
  - destruct l as [|z l].
    + exists ""%string, ""%string. simpl. by rewrite string_append_nil_r.
    + exists ""%string, (String.append sep (String.concat sep (z :: l))). done.
  - destruct l as [|z l]; [by apply not_elem_of_nil in Hx|].
    destruct (IH Hx) as (pre & post & Heq).
    exists (String.append y (String.append sep pre)), post.
    change (String.concat sep (y :: z :: l))
      with (String.append y (String.append sep (String.concat sep (z :: l)))).
    rewrite Heq, !string_append_assoc. done.
Qed.

Lemma item_errors_spec {T R} (process : T -> R * option error) xs e :
  e ∈ item_errors process xs <-> exists x, x ∈ xs /\ snd (process x) = Some e.
Proof.
  unfold item_errors. rewrite list_elem_of_bind. unfold err_of.
  split.
  - intros (x & He & Hx). exists x. split; [done|].
    destruct (snd (process x)) as [e'|]; [|by apply not_elem_of_nil in He].
    apply list_elem_of_singleton in He. by subst.
  - intros (x & Hx & He). exists x. rewrite He. split; [|done].
    by apply list_elem_of_singleton.
Qed.

Lemma item_errors_nil_iff {T R} (process : T -> R * option error) xs :
  item_errors process xs = [] <-> forall x, x ∈ xs -> snd (process x) = None.
Proof.
  split.
  - intros Hn x Hx. destruct (snd (process x)) as [e|] eqn:He; [|done].
    assert (Hin : e ∈ item_errors process xs) by (apply item_errors_spec; eauto).
    rewrite Hn in Hin. by apply not_elem_of_nil in Hin.
  - intros Hall. destruct (item_errors process xs) as [|e l] eqn:Hl; [done|].
    assert (Hin : e ∈ item_errors process xs) by (rewrite Hl; apply elem_of_cons; by left).
    apply item_errors_spec in Hin as (x & Hx & He). by rewrite Hall in He.
Qed.

Lemma run_sched_measure {T R} items batchSize pol (process : T -> R * option error)
    (s s' : state R) ts :
  run_sched items batchSize pol process s ts = Some s' ->
  length ts + measure items s' <= measure items s.
Proof.
  revert s. induction ts as [|t ts IH]; simpl; intros s Hs.
  - injection Hs as <-. lia.
  - destruct (exec items batchSize pol process t s) as [s1|] eqn:He; [|done].
    specialize (IH s1 Hs).
    assert (Hlt : measure items s1 < measure items s)
      by (apply (measure_step items batchSize pol process); by exists t).
    lia.
Qed.

Lemma measure_init {T R} (items : list T) batchSize (zero : R) :
  measure items (Run_init items batchSize zero) <= 6 * length items + 2.
Proof. unfold Run_init. destruct (batchSize <? 0)%Z; unfold measure; simpl; lia. Qed.

(** Under any strategy, [errChan] never holds more values than the failures
    reported so far. *)
Lemma errChan_bounded_step {T R} items batchSize pol (process : T -> R * option error)
    (s s' : state R) :
  step items batchSize pol process s s' ->
  length (errChan s) <= length (ran_errors process (gs s) items) ->
  length (errChan s') <= length (ran_errors process (gs s') items).
Proof.
  destruct s as [p sm w res ec ae g]. intros [[|j] Hs] Hle; simpl in *.
  - destruct p as [i|i|e| |r er|]; try done.
    + destruct (items !! i); [destruct (sm <? cap batchSize)|]; try done;
        injection Hs as <-; simpl; rewrite ?ran_errors_spawn; done.
    + destruct pol; [destruct ec|]; injection Hs as <-; simpl in *; lia.
    + destruct (w =? 0); [|done]. injection Hs as <-. done.
    + destruct (w =? 0); [|done].
      destruct pol, ec, ae; injection Hs as <-; simpl in *; lia.
  - unfold go_step in Hs.
    destruct (g !! j) as [[]|] eqn:Hg;
      [destruct (items !! j) as [item|] eqn:Hx| | | |]; try done.
    + pose proof (ran_errors_run process g items j item Hg Hx) as Hp.
      apply Permutation_length in Hp. rewrite length_app in Hp.
      unfold err_of in Hp.
      destruct (process item) as [result [e|]] eqn:Hpi; simpl in Hp;
        [destruct pol|]; injection Hs as <-; simpl; rewrite Hp.
      * destruct (length ec <? length items); rewrite ?length_app; simpl; lia.
      * lia.
      * lia.
    + destruct sm; [done|]. injection Hs as <-. simpl.
      by rewrite (ran_errors_insert_same process g items j GRelease GDone Hg eq_refl).
    + destruct w; [done|]. injection Hs as <-. simpl.
      by rewrite (ran_errors_insert_same process g items j GDone GFinished Hg eq_refl).
Qed.

Lemma errChan_bounded {T R} items batchSize pol (process : T -> R * option error) zero
    (s : state R) :
  rtc (step items batchSize pol process) (Run_init items batchSize zero) s ->
  length (errChan s) <= length (ran_errors process (gs s) items).
Proof.
  intros Hr. remember (Run_init items batchSize zero) as s0 eqn:E.
  assert (H0 : length (errChan s0) <= length (ran_errors process (gs s0) items))
    by (subst; unfold Run_init; destruct (batchSize <? 0)%Z; simpl; lia).
  clear E. induction Hr as [s0|s0 s1 s2 Hst Hr IH]; [done|].
  apply IH. by eapply errChan_bounded_step.
Qed.

(** The states of every reachable non-panic [Run] state. *)
Lemma reachable_inv {T R} items batchSize pol (process : T -> R * option error) zero
    (s : state R) j g0 :
  rtc (step items batchSize pol process) (Run_init items batchSize zero) s ->
  gs s !! j = Some g0 ->
  length (gs s) <= length items /\ sem s = count_of holds (gs s) /\
  wg s = count_of alive (gs s) /\ results s = slots process zero (gs s) items.
Proof.
  intros Hr Hj. pose proof (Inv_reachable items batchSize pol process zero s Hr) as HI.
  unfold Inv in HI. destruct (is_panic (pc s)).
  - destruct HI as [Hg _]. rewrite Hg in Hj. done.
  - destruct HI as (Hl & Hs & _ & Hw & Hres & _). done.
Qed.

(** Scenario B of spec §8 reaches its final state. *)
Lemma scenB_reaches :
  rtc (step [1; 2; 3; 4; 5] 2%Z CONTINUE_ON_ERROR square_fail3)
      (Run_init [1; 2; 3; 4; 5] 2%Z 0) scenB_final.
Proof. apply (run_sched_rtc _ _ _ _ _ schedB). vm_compute. reflexivity. Qed.

Lemma stop_s2_reaches :
  rtc (step [0; 1] 2%Z STOP_ON_ERROR fail_both) (Run_init [0; 1] 2%Z tt) stop_s2.
Proof.
  apply (run_sched_rtc _ _ _ _ _ [Main; Main; Main; Main; Go 0]). vm_compute. reflexivity.
Qed.

(** X1: under either strategy, [Run] returns a [nil] error exactly when
    [process] succeeds on every item. *)
Theorem Run_nil_error_iff_all_succeed {T R} (items : list T) (batchSize : Z)
    (handleErrorStrategy : errorHandler) (process : T -> R * option error) (zero : R)
    res err :
  Run_returns items batchSize handleErrorStrategy process zero res err ->
  (err = None <-> forall x, x ∈ items -> snd (process x) = None).
Proof.
  intros Hr. rewrite <- item_errors_nil_iff.
  apply Run_returns_outcome in Hr. unfold outcome_ok in Hr.
  destruct handleErrorStrategy; destruct (item_errors process items) as [|e l].
  - destruct Hr as [_ ->]. done.
  - destruct Hr as [_ (e' & -> & _)]. done.
  - destruct Hr as [_ ->]. done.
  - destruct Hr as [_ (es & _ & ->)]. done.
Qed.

Lemma Run_nil_error_iff_all_succeed_witness :
  Run_returns [1; 2; 3; 4; 5] 2%Z CONTINUE_ON_ERROR square_fail3 0 (results scenB_final)
    (Some (errorString "multiple errors: error processing item 3")) /\
  (Some (errorString "multiple errors: error processing item 3") = None <->
   forall x, x ∈ [1; 2; 3; 4; 5] -> snd (square_fail3 x) = None).
Proof.
  assert (Hr : Run_returns [1; 2; 3; 4; 5] 2%Z CONTINUE_ON_ERROR square_fail3 0
                 (results scenB_final)
                 (Some (errorString "multiple errors: error processing item 3"))).
  { exists scenB_final. split; [exact scenB_reaches|]. vm_compute. reflexivity. }
  split; [exact Hr|]. exact (Run_nil_error_iff_all_succeed _ _ _ _ _ _ _ Hr).
Defined.


(** X3: for [batchSize >= 1], [Run] never deadlocks: every reachable state
    has returned or some goroutine can take a step. *)
Theorem Run_no_deadlock {T R} (items : list T) (batchSize : Z)
    (handleErrorStrategy : errorHandler) (process : T -> R * option error) (zero : R)
    (s : state R) :
  (0 < batchSize)%Z ->
  rtc (step items batchSize handleErrorStrategy process) (Run_init items batchSize zero) s ->
  (exists res err, pc s = MReturned res err) \/
  (exists s', step items batchSize handleErrorStrategy process s s').
Proof.
  intros Hb Hr. pose proof (Inv_reachable items batchSize handleErrorStrategy process zero s Hr)
    as HI.
  destruct (final (pc s)) eqn:Hf.
  - left. destruct (pc s) as [| | | |res err|] eqn:Hp; try done; [by exists res, err|].
    pose proof (rtc_not_panic items batchSize handleErrorStrategy process _ s Hr Hp) as H0.
    unfold Run_init in H0. destruct (batchSize <? 0)%Z eqn:E; [lia|done].
  - right. eapply progress; [|exact HI|exact Hf]. unfold cap. lia.
Qed.

Lemma Run_no_deadlock_witness :
  (0 < 2)%Z /\
  rtc (step [1; 2; 3; 4; 5] 2%Z CONTINUE_ON_ERROR square_fail3)
      (Run_init [1; 2; 3; 4; 5] 2%Z 0) scenB_busy /\
  ((exists res err, pc scenB_busy = MReturned res err) \/
   (exists s', step [1; 2; 3; 4; 5] 2%Z CONTINUE_ON_ERROR square_fail3 scenB_busy s')).
Proof.
  assert (Hr : rtc (step [1; 2; 3; 4; 5] 2%Z CONTINUE_ON_ERROR square_fail3)
                 (Run_init [1; 2; 3; 4; 5] 2%Z 0) scenB_busy)
    by (apply (run_sched_rtc _ _ _ _ _ [Main; Main; Main; Main]); vm_compute; reflexivity).
  split; [lia|]. split; [exact Hr|].
  exact (Run_no_deadlock [1; 2; 3; 4; 5] 2%Z CONTINUE_ON_ERROR square_fail3 0 scenB_busy
           ltac:(lia) Hr).
Defined.

(** X4: every interleaving of [Run] is finite: any sequence of atomic steps
    from the start has at most [6 * len(items) + 2] steps. *)
Theorem Run_steps_bounded {T R} (items : list T) (batchSize : Z)
    (handleErrorStrategy : errorHandler) (process : T -> R * option error) (zero : R)
    ts (s : state R) :
  run_sched items batchSize handleErrorStrategy process (Run_init items batchSize zero) ts
    = Some s ->
  length ts <= 6 * length items + 2.
Proof.
  intros Hs. pose proof (run_sched_measure _ _ _ _ _ _ _ Hs).
  pose proof (measure_init items batchSize zero). lia.
Qed.

Lemma Run_steps_bounded_witness :
  run_sched [1; 2; 3; 4; 5] 2%Z CONTINUE_ON_ERROR square_fail3
    (Run_init [1; 2; 3; 4; 5] 2%Z 0) schedB = Some scenB_final /\
  length schedB <= 6 * length [1; 2; 3; 4; 5] + 2.
Proof.
  assert (Hs : run_sched [1; 2; 3; 4; 5] 2%Z CONTINUE_ON_ERROR square_fail3
                 (Run_init [1; 2; 3; 4; 5] 2%Z 0) schedB = Some scenB_final)
    by (vm_compute; reflexivity).
  split; [exact Hs|]. exact (Run_steps_bounded _ _ _ _ _ _ _ Hs).
Defined.

(** X5: the deferred calls of a spawned goroutine never block or
    underflow: a goroutine about to run [<-semaphore] finds a token in the
    channel, and one about to run [wg.Done()] is counted by the wait group,
    so the counter never goes negative. *)
Theorem Run_deferred_calls_enabled {T R} (items : list T) (batchSize : Z)
    (handleErrorStrategy : errorHandler) (process : T -> R * option error) (zero : R)
    (s : state R) j :
  rtc (step items batchSize handleErrorStrategy process) (Run_init items batchSize zero) s ->
  (gs s !! j = Some GRelease -> 1 <= sem s) /\
  (gs s !! j = Some GDone -> 1 <= wg s).
Proof.
  intros Hr. split; intros Hj;
    destruct (reachable_inv _ _ _ _ _ _ _ _ Hr Hj) as (_ & Hs & Hw & _).
  - rewrite Hs. pose proof (count_of_lookup holds (gs s) j GRelease Hj eq_refl). lia.
  - rewrite Hw. pose proof (count_of_lookup alive (gs s) j GDone Hj eq_refl). lia.
Qed.

Lemma Run_deferred_calls_enabled_witness :
  rtc (step [0; 1] 2%Z STOP_ON_ERROR fail_both) (Run_init [0; 1] 2%Z tt) stop_s2 /\
  gs stop_s2 !! 0 = Some GRelease /\ 1 <= sem stop_s2.
Proof.
  assert (Hj : gs stop_s2 !! 0 = Some GRelease) by (vm_compute; reflexivity).
  split; [exact stop_s2_reaches|]. split; [exact Hj|].
  exact (proj1 (Run_deferred_calls_enabled _ _ _ _ _ _ 0 stop_s2_reaches) Hj).
Defined.

(** X6: every spawned goroutine's index is in range of [items] and of the
    [results] slice, so [results[i] = result] never indexes out of range. *)
Theorem Run_result_write_in_bounds {T R} (items : list T) (batchSize : Z)
    (handleErrorStrategy : errorHandler) (process : T -> R * option error) (zero : R)
    (s : state R) j g0 :
  rtc (step items batchSize handleErrorStrategy process) (Run_init items batchSize zero) s ->
  gs s !! j = Some g0 ->
  j < length items /\ length (results s) = length items.
Proof.
  intros Hr Hj. destruct (reachable_inv _ _ _ _ _ _ _ _ Hr Hj) as (Hl & _ & _ & ->).
  apply lookup_lt_Some in Hj. rewrite length_slots. split; [lia|done].
Qed.

Lemma Run_result_write_in_bounds_witness :
  rtc (step [0; 1] 2%Z STOP_ON_ERROR fail_both) (Run_init [0; 1] 2%Z tt) stop_s2 /\
  gs stop_s2 !! 1 = Some GStart /\
  1 < length [0; 1] /\ length (results stop_s2) = length [0; 1].
Proof.
  assert (Hj : gs stop_s2 !! 1 = Some GStart) by (vm_compute; reflexivity).
  split; [exact stop_s2_reaches|]. split; [exact Hj|].
  exact (Run_result_write_in_bounds _ _ _ _ _ _ _ _ stop_s2_reaches Hj).
Defined.

(** X7: whenever a spawned goroutine is about to run [process], [errChan]
    (capacity [len(items)]) has room, so the [select] with a [default]
    branch in the goroutine always sends its failure: no report is
    dropped. *)
Theorem Run_error_send_has_room {T R} (items : list T) (batchSize : Z)
    (handleErrorStrategy : errorHandler) (process : T -> R * option error) (zero : R)
    (s : state R) j :
  rtc (step items batchSize handleErrorStrategy process) (Run_init items batchSize zero) s ->
  gs s !! j = Some GStart ->
  length (errChan s) < length items.
Proof.
  intros Hr Hj. destruct (reachable_inv _ _ _ _ _ _ _ _ Hr Hj) as (Hl & _).
  pose proof (errChan_bounded _ _ _ _ _ _ Hr).
  pose proof (length_ran_errors_lt process (gs s) items j Hj). lia.
Qed.

Lemma Run_error_send_has_room_witness :
  rtc (step [0; 1] 2%Z STOP_ON_ERROR fail_both) (Run_init [0; 1] 2%Z tt) stop_s2 /\
  gs stop_s2 !! 1 = Some GStart /\ errChan stop_s2 = [errorString "e0"] /\
  length (errChan stop_s2) < length [0; 1].
Proof.
  assert (Hj : gs stop_s2 !! 1 = Some GStart) by (vm_compute; reflexivity).
  split; [exact stop_s2_reaches|]. split; [exact Hj|].
  split; [vm_compute; reflexivity|].
  exact (Run_error_send_has_room _ _ _ _ _ _ 1 stop_s2_reaches Hj).
Defined.

(** X8: the message of [aggregateErrors errs] starts with
    "multiple errors: " and contains the message of each error of
    [errs]. *)
Theorem aggregateErrors_contains (errs : list error) e :
  e ∈ errs ->
  (exists rest, Error (aggregateErrors errs) = String.append "multiple errors: " rest) /\
  substring_of (Error e) (Error (aggregateErrors errs)).
Proof.
  intros He. split; [by eexists|].
  assert (Hm : Error e ∈ map Error errs).
  { apply list_elem_of_In. apply in_map. by apply list_elem_of_In. }
  destruct (concat_substring "; " _ _ Hm) as (pre & post & Heq).
  exists (String.append "multiple errors: " pre), post. simpl.
  rewrite Heq. reflexivity.
Qed.

Lemma aggregateErrors_contains_witness :
  errorString "e1" ∈ [errorString "e0"; errorString "e1"] /\
  substring_of "e1" (Error (aggregateErrors [errorString "e0"; errorString "e1"])).
Proof.
  assert (He : errorString "e1" ∈ [errorString "e0"; errorString "e1"])
    by (apply elem_of_cons; right; apply list_elem_of_singleton; reflexivity).
  split; [exact He|]. exact (proj2 (aggregateErrors_contains _ _ He)).
Defined.

(** X9: under CONTINUE_ON_ERROR, the error [Run] returns contains the
    message of every error [process] returned for an item (what
    TestRun_ContinueOnErrors_Aggregate checks with [strings.Contains]). *)
Theorem Run_continue_error_contains_all {T R} (items : list T) (batchSize : Z)
    (process : T -> R * option error) (zero : R) res err x e :
  Run_returns items batchSize CONTINUE_ON_ERROR process zero res err ->
  x ∈ items -> snd (process x) = Some e ->
  exists agg, err = Some agg /\ substring_of (Error e) (Error agg).
Proof.
  intros Hr Hx He.
  assert (Hin : e ∈ item_errors process items) by (apply item_errors_spec; eauto).
  apply Run_returns_outcome in Hr. unfold outcome_ok in Hr. simpl in Hr.
  destruct Hr as [_ Hr]. destruct (item_errors process items) as [|e0 l] eqn:Hl;
    [by apply not_elem_of_nil in Hin|].
  destruct Hr as (es & Hp & ->). exists (aggregateErrors es). split; [done|].
  apply (aggregateErrors_contains es e). by rewrite Hp.
Qed.

Lemma Run_continue_error_contains_all_witness :
  Run_returns [1; 2; 3; 4; 5] 2%Z CONTINUE_ON_ERROR square_fail3 0 (results scenB_final)
    (Some (errorString "multiple errors: error processing item 3")) /\
  3 ∈ [1; 2; 3; 4; 5] /\
  snd (square_fail3 3) = Some (errorString "error processing item 3") /\
  exists agg, Some (errorString "multiple errors: error processing item 3") = Some agg /\
    substring_of "error processing item 3" (Error agg).
Proof.
  assert (Hr : Run_returns [1; 2; 3; 4; 5] 2%Z CONTINUE_ON_ERROR square_fail3 0
                 (results scenB_final)
                 (Some (errorString "multiple errors: error processing item 3"))).
  { exists scenB_final. split; [exact scenB_reaches|]. vm_compute. reflexivity. }
  assert (Hx : 3 ∈ [1; 2; 3; 4; 5])
    by (apply list_elem_of_In; simpl; tauto).
  assert (He : snd (square_fail3 3) = Some (errorString "error processing item 3"))
    by reflexivity.
  split; [exact Hr|]. split; [exact Hx|]. split; [exact He|].
  exact (Run_continue_error_contains_all _ _ _ _ _ _ _ _ Hr Hx He).
Defined.

(** X10: for [batchSize >= 1], [Process] returns, and every error it
    returns is [nil] when [process] succeeds on every item and otherwise
    an error [process] returned for one of the items. *)
Theorem Process_outcome {T} (items : list T) (batchSize : Z)
    (process : T -> option error) :
  (0 < batchSize)%Z ->
  (exists err, Process_returns items batchSize process err) /\
  (forall err, Process_returns items batchSize process err ->
     match err with
     | None => forall x, x ∈ items -> process x = None
     | Some e => exists x, x ∈ items /\ process x = Some e
     end).
Proof.
  intros Hb. split.
  - destruct (Run_terminates items batchSize STOP_ON_ERROR (Process_wrap process) tt Hb)
      as (res & err & Hr).
    by exists err, res.
  - intros err (res & Hr). apply Run_returns_outcome in Hr. unfold outcome_ok in Hr.
    simpl in Hr. destruct (item_errors (Process_wrap process) items) as [|e0 l] eqn:Hl.
    + destruct Hr as [_ ->].
      exact (proj1 (item_errors_nil_iff (Process_wrap process) items) Hl).
    + destruct Hr as [_ (e & -> & Hin)]. rewrite <- Hl in Hin.
      apply item_errors_spec in Hin as (x & Hx & He). by exists x.
Qed.

Lemma Process_outcome_witness :
  (0 < 3)%Z /\
  exists err, Process_returns [1; 2; 3; 4; 5] 3%Z (fun n => snd (square_fail3 n)) err.
Proof.
  split; [lia|].
  exact (proj1 (Process_outcome [1; 2; 3; 4; 5] 3%Z (fun n => snd (square_fail3 n))
                  ltac:(lia))).
Defined.

(** X11: on the empty input, for every [batchSize >= 0], strategy and
    operation, [Run] returns, and its only outcome is an empty result slice
    with a [nil] error. *)
Theorem Run_empty_input {T R} (batchSize : Z) (handleErrorStrategy : errorHandler)
    (process : T -> R * option error) (zero : R) :
  (0 <= batchSize)%Z ->
  Run_returns [] batchSize handleErrorStrategy process zero [] None /\
  (forall res err, Run_returns [] batchSize handleErrorStrategy process zero res err ->
     res = [] /\ err = None).
Proof.
  intros Hb. split.
  - assert (Hinit : Run_init (T:=T) [] batchSize zero = mkState (MLoop 0) 0 0 [] [] [] []).
    { unfold Run_init. by rewrite (proj2 (Z.ltb_ge _ _) Hb). }
    exists (mkState (MReturned [] None) 0 0 [] [] [] []). split; [|done].
    rewrite Hinit.
    eapply rtc_l; [exists Main; reflexivity|].
    eapply rtc_l; [exists Main; destruct handleErrorStrategy; reflexivity|].
    apply rtc_refl.
  - intros res err Hr. apply Run_returns_outcome in Hr. unfold outcome_ok in Hr.
    destruct handleErrorStrategy; simpl in Hr; destruct Hr as [-> ->]; done.
Qed.

Lemma Run_empty_input_witness :
  (0 <= 3)%Z /\ Run_returns [] 3%Z STOP_ON_ERROR square_fail3 0 [] None.
Proof.
  split; [lia|]. exact (proj1 (Run_empty_input 3%Z STOP_ON_ERROR square_fail3 0 ltac:(lia))).
Defined.
